(** * ExcaliDash: the server-side trust boundary

    A shallow embedding of the two modules that guard the backend:
    - [security.ts]: the pattern-based string sanitizers, the zod schemas
      for drawing documents, [sanitizeDrawingData], [validateImportedDrawing];
    - [auth.ts]: credential verification, the session table and the login
      rate limiter.

    JavaScript strings are sequences of UTF-16 code units, regular
    expressions are run by a backtracking matcher written in the
    continuation style of the ECMAScript specification, zod schemas are
    values of a small schema type with a [parse] function, and the two
    module-level [Map]s are finite maps that every operation takes and
    returns. *)

From Stdlib Require Import ZArith NArith QArith List String Ascii Bool Lia.
From stdpp Require Import base option list gmap.
Import ListNotations.

Set Warnings "-register-all".
Local Open Scope nat_scope.

(* ================================================================= *)
(** ** JavaScript strings *)

Module JsString.

(** A string is its sequence of UTF-16 code units. [length] is the
    [.length] of the source, [firstn] its [slice(0, n)]. *)
Abbreviation jsstring := (list N) (only parsing).

(** ASCII literals of the source, written as Rocq strings. *)
Definition lit (s : string) : jsstring :=
  map N_of_ascii (list_ascii_of_string s).

Definition between (lo hi c : N) : bool := ((lo <=? c) && (c <=? hi))%N.

(** WhiteSpace and LineTerminator of ECMAScript: what [trim] strips and
    what [\s] matches. *)
Definition is_space (c : N) : bool :=
  between 9 13 c || (c =? 32)%N || (c =? 160)%N || (c =? 5760)%N
  || between 8192 8202 c || (c =? 8232)%N || (c =? 8233)%N
  || (c =? 8239)%N || (c =? 8287)%N || (c =? 12288)%N || (c =? 65279)%N.

Fixpoint trimStart (s : jsstring) : jsstring :=
  match s with
  | c :: s' => if is_space c then trimStart s' else s
  | [] => []
  end.

Definition trimEnd (s : jsstring) : jsstring := rev (trimStart (rev s)).

Definition trim (s : jsstring) : jsstring := trimEnd (trimStart s).

(** [s.slice(0, n)] for an integral [n]: a negative end counts from the
    end of the string. *)
Definition slice0 (s : jsstring) (n : Z) : jsstring :=
  if (n <? 0)%Z then firstn (length s - Z.to_nat (- n)) s
  else firstn (Z.to_nat n) s.

(** The one-character string holding a double quote. *)
Definition dquote : jsstring := [34%N].

Definition quoted (s : jsstring) : jsstring := dquote ++ s ++ dquote.

Definition eqb (a b : jsstring) : bool := bool_decide (a = b).

(** [s.startsWith(t)] and [s.includes(t)] *)
Fixpoint starts_with (t s : jsstring) : bool :=
  match t, s with
  | [], _ => true
  | a :: t', b :: s' => (a =? b)%N && starts_with t' s'
  | _ :: _, [] => false
  end.

Fixpoint includes (s t : jsstring) : bool :=
  starts_with t s || match s with [] => false | _ :: s' => includes s' t end.

End JsString.
Import JsString.

(* ================================================================= *)
(** ** Regular expressions *)

Module Regex.

(** The fragment of the pattern language the source uses. A character
    class is its membership test on code units; groups capture nothing
    the source reads, so they are plain sequencing. *)
Inductive regex : Type :=
| Empty
| Char (p : N -> bool)
| Seq (r1 r2 : regex)
| Alt (r1 r2 : regex)
| Star (r : regex)
| NotAhead (r : regex)
| Bol
| WordBoundary.

Definition Plus (r : regex) : regex := Seq r (Star r).
Definition Opt (r : regex) : regex := Alt r Empty.

(** Matcher state: the code unit before the current position (absent at
    the start of the input), the input still ahead, and the number of
    code units consumed since the match started. *)
Record mstate : Type := MState {
  m_prev : option N;
  m_rest : list N;
  m_end : nat
}.

(** [\w] *)
Definition is_word (c : N) : bool :=
  between 97 122 c || between 65 90 c || between 48 57 c || (c =? 95)%N.

Definition is_word_opt (o : option N) : bool :=
  match o with Some c => is_word c | None => false end.

Definition at_word_boundary (st : mstate) : bool :=
  xorb (is_word_opt (m_prev st)) (is_word_opt (head (m_rest st))).

(** Greedy repetition: try one more non-empty iteration of [step], fall
    back to the continuation. An iteration that consumes nothing is
    refused, as in RepeatMatcher. [fuel] is the length of the input
    ahead: once it is used up no iteration can consume anything. *)
Fixpoint star_loop (step : mstate -> (mstate -> option nat) -> option nat)
    (k : mstate -> option nat) (fuel : nat) (st : mstate) : option nat :=
  match fuel with
  | 0 => k st
  | S fuel' =>
      match step st (fun st1 =>
               if m_end st <? m_end st1 then star_loop step k fuel' st1
               else None) with
      | Some n => Some n
      | None => k st
      end
  end.

(** The backtracking matcher: [rmatch r st k] matches [r] at [st] and
    hands the state after it to the continuation [k]; when [k] fails the
    next alternative of [r] is tried. *)
Fixpoint rmatch (r : regex) (st : mstate) (k : mstate -> option nat)
    : option nat :=
  match r with
  | Empty => k st
  | Char p =>
      match m_rest st with
      | c :: tl => if p c then k (MState (Some c) tl (S (m_end st))) else None
      | [] => None
      end
  | Seq r1 r2 => rmatch r1 st (fun st1 => rmatch r2 st1 k)
  | Alt r1 r2 =>
      match rmatch r1 st k with
      | Some n => Some n
      | None => rmatch r2 st k
      end
  | Star r1 => star_loop (rmatch r1) k (length (m_rest st)) st
  | NotAhead r1 =>
      match rmatch r1 st (fun _ => Some 0) with
      | Some _ => None
      | None => k st
      end
  | Bol => match m_prev st with None => k st | Some _ => None end
  | WordBoundary => if at_word_boundary st then k st else None
  end.

(** One match attempt at the current position; the result is the length
    of the match. *)
Definition regex_exec (r : regex) (prev : option N) (s : jsstring)
    : option nat :=
  rmatch r (MState prev s 0) (fun st => Some (m_end st)).

(** [s.replace(/r/g, repl)] for a replacement text without [$]: scan from
    the left, replace each match and resume after it ([skip] counts the
    code units of the current match still to drop); after an empty
    match the scan moves one code unit on. *)
Fixpoint replace_scan (r : regex) (repl : jsstring) (prev : option N)
    (s : jsstring) (skip : nat) : jsstring :=
  match s with
  | [] =>
      match skip with
      | 0 => match regex_exec r prev [] with Some _ => repl | None => [] end
      | S _ => []
      end
  | c :: s' =>
      match skip with
      | S n => replace_scan r repl (Some c) s' n
      | 0 =>
          match regex_exec r prev s with
          | Some (S n) => repl ++ replace_scan r repl (Some c) s' n
          | Some 0 => repl ++ c :: replace_scan r repl (Some c) s' 0
          | None => c :: replace_scan r repl (Some c) s' 0
          end
      end
  end.

Definition replace_all (r : regex) (repl : jsstring) (s : jsstring)
    : jsstring :=
  replace_scan r repl None s 0.

(** [/r/.test(s)]: is there a match starting anywhere in [s]. *)
Fixpoint regex_search (r : regex) (prev : option N) (s : jsstring) : bool :=
  match regex_exec r prev s with
  | Some _ => true
  | None =>
      match s with
      | [] => false
      | c :: s' => regex_search r (Some c) s'
      end
  end.

Definition regex_test (r : regex) (s : jsstring) : bool :=
  regex_search r None s.

(** Canonicalize of the [i] flag, as far as it bears on comparisons with
    the ASCII characters of the source patterns: ASCII letters fold to
    upper case, and no other code unit folds to an ASCII one. *)
Definition canonicalize (c : N) : N :=
  if between 97 122 c then (c - 32)%N else c.

Definition ci (c : N) : N -> bool :=
  fun x => (canonicalize x =? canonicalize c)%N.

Definition is_char (c : N) : N -> bool := fun x => (x =? c)%N.
Definition not_char (c : N) : N -> bool := fun x => negb (x =? c)%N.

(** A literal under the [i] flag. *)
Fixpoint ilit_of (cs : list N) : regex :=
  match cs with
  | [] => Empty
  | [c] => Char (ci c)
  | c :: cs' => Seq (Char (ci c)) (ilit_of cs')
  end.

Definition ilit (s : string) : regex := ilit_of (lit s).

(** The least number of code units a match consumes. *)
Fixpoint min_len (r : regex) : nat :=
  match r with
  | Char _ => 1
  | Seq r1 r2 => min_len r1 + min_len r2
  | Alt r1 r2 => Nat.min (min_len r1) (min_len r2)
  | Empty | Star _ | NotAhead _ | Bol | WordBoundary => 0
  end.

(** [r] matches somewhere in [s], at a position whose preceding code
    unit is [prev]. *)
Fixpoint occurs_from (r : regex) (prev : option N) (s : jsstring) : Prop :=
  is_Some (regex_exec r prev s)
  \/ match s with
     | [] => False
     | c :: s' => occurs_from r (Some c) s'
     end.

Definition occurs (r : regex) (s : jsstring) : Prop := occurs_from r None s.

End Regex.
Import Regex.

Declare Scope regex_scope.
Delimit Scope regex_scope with re.
Infix "·" := Seq (at level 40, left associativity) : regex_scope.
Infix "∣" := Alt (at level 50, left associativity) : regex_scope.

(* ================================================================= *)
(** ** security.ts: the string sanitizers *)

Module Patterns.
Local Open Scope regex_scope.
Local Open Scope string_scope.

Definition quote : N -> bool := fun c => (c =? 34)%N || (c =? 39)%N.
Definition not_quote : N -> bool := fun c => negb (quote c).
Definition not_lt : N -> bool := not_char 60.
Definition not_gt : N -> bool := not_char 62.

(** [/<tag\b[^<]*(?:(?!<\/tag>)<[^<]* )*<\/tag>/gi] (one space added) *)
Definition block_re (tag : string) : regex :=
  ilit ("<" ++ tag) · WordBoundary · Star (Char not_lt)
  · Star (NotAhead (ilit ("</" ++ tag ++ ">")) · Char (is_char 60)
          · Star (Char not_lt))
  · ilit ("</" ++ tag ++ ">").

Definition script_re : regex := block_re "script".
Definition iframe_re : regex := block_re "iframe".
Definition object_re : regex := block_re "object".
Definition embed_re : regex := block_re "embed".
Definition style_re : regex := block_re "style".
Definition foreignObject_re : regex := block_re "foreignObject".

(** [/javascript:/gi] *)
Definition javascript_re : regex := ilit "javascript:".

(** [/on\w+\s*=\s*[Q'][^Q']*[Q']/gi], where Q stands for the double
    quote *)
Definition handler_re : regex :=
  ilit "on" · Plus (Char is_word) · Star (Char is_space) · Char (is_char 61)
  · Star (Char is_space) · Char quote · Star (Char not_quote) · Char quote.

(** [/<link\b[^>]*>/gi] *)
Definition link_re : regex :=
  ilit "<link" · WordBoundary · Star (Char not_gt) · Char (is_char 62).

(** [/\sNAME\s*=\s*[Q'][^Q']*(?:javascript:)[^Q']*[Q']/gi] for
    [NAME] = [href] and [xlink:href] *)
Definition js_attr_re (name : string) : regex :=
  Char is_space · ilit name · Star (Char is_space) · Char (is_char 61)
  · Star (Char is_space) · Char quote · Star (Char not_quote)
  · ilit "javascript:" · Star (Char not_quote) · Char quote.

Definition href_re : regex := js_attr_re "href".
Definition xlink_href_re : regex := js_attr_re "xlink:href".

(** [/[\x00-\x08\x0B\x0C\x0E-\x1F\x7F]/g] *)
Definition is_control (c : N) : bool :=
  between 0 8 c || (c =? 11)%N || (c =? 12)%N || between 14 31 c
  || (c =? 127)%N.
Definition control_re : regex := Char is_control.

(** [/^(javascript|data|vbscript):/i] *)
Definition blocked_scheme_re : regex :=
  Bol · (ilit "javascript" ∣ ilit "data" ∣ ilit "vbscript")
  · Char (is_char 58).

(** [/^(https?:\/\/|mailto:|\/|\.\/|\.\.\/)/i] *)
Definition allowed_url_re : regex :=
  Bol · (ilit "http" · Opt (ilit "s") · ilit "://" ∣ ilit "mailto:"
         ∣ ilit "/" ∣ ilit "./" ∣ ilit "../").

End Patterns.
Import Patterns.

Module Sanitizers.
Local Open Scope string_scope.

(** The argument of the exported sanitizers is whatever the caller
    passes; [None] stands for any value that is not a string. *)
Definition sanitizeHtml_str (input : jsstring) : jsstring :=
  trim
    (replace_all style_re []
    (replace_all link_re []
    (replace_all embed_re []
    (replace_all object_re []
    (replace_all iframe_re []
    (replace_all handler_re []
    (replace_all javascript_re []
    (replace_all script_re [] input)))))))).

Definition sanitizeHtml (input : option jsstring) : jsstring :=
  match input with
  | None => []
  | Some s => sanitizeHtml_str s
  end.

Definition sanitizeSvg_str (svgContent : jsstring) : jsstring :=
  trim
    (replace_all xlink_href_re (lit " xlink:href=" ++ dquote ++ lit "#" ++ dquote)%list
    (replace_all href_re (lit " href=" ++ dquote ++ lit "#" ++ dquote)%list
    (replace_all foreignObject_re []
    (replace_all handler_re []
    (replace_all javascript_re []
    (replace_all script_re [] svgContent)))))).

Definition sanitizeSvg (svgContent : option jsstring) : jsstring :=
  match svgContent with
  | None => []
  | Some s => sanitizeSvg_str s
  end.

Definition sanitizeText (input : option jsstring) (maxLength : Z)
    : jsstring :=
  match input with
  | None => []
  | Some s =>
      let cleaned := replace_all control_re [] s in
      let truncated := slice0 cleaned maxLength in
      sanitizeHtml (Some truncated)
  end.

Definition sanitizeUrl (url : option jsstring) : jsstring :=
  match url with
  | None => []
  | Some s =>
      let trimmed := trim s in
      if regex_test blocked_scheme_re trimmed then []
      else if regex_test allowed_url_re trimmed then trimmed
      else []
  end.

End Sanitizers.
Import Sanitizers.

(* ================================================================= *)
(** ** JavaScript values, exceptions *)

Module JsValue.

(** A number is a double: a finite double is a rational, and the schemas
    only compare numbers with constants. *)
Inductive number : Type :=
| Fin (q : Q)
| NaN
| PosInf
| NegInf.

(** The values a parsed JSON document (or a test literal) is made of. An
    object is the list of its own properties in insertion order. *)
Inductive jsval : Type :=
| JUndefined
| JNull
| JBool (b : bool)
| JNum (n : number)
| JStr (s : jsstring)
| JArr (items : list jsval)
| JObj (fields : list (jsstring * jsval)).

Inductive jstype : Type :=
| TUndefined | TObject | TBoolean | TNumber | TString.

Definition typeof (v : jsval) : jstype :=
  match v with
  | JUndefined => TUndefined
  | JNull | JArr _ | JObj _ => TObject
  | JBool _ => TBoolean
  | JNum _ => TNumber
  | JStr _ => TString
  end.

Definition is_object_type (v : jsval) : bool :=
  match typeof v with TObject => true | _ => false end.

(** ToBoolean *)
Definition truthy (v : jsval) : bool :=
  match v with
  | JUndefined | JNull => false
  | JBool b => b
  | JNum (Fin q) => negb (Qeq_bool q 0)
  | JNum NaN => false
  | JNum _ => true
  | JStr s => match s with [] => false | _ => true end
  | JArr _ | JObj _ => true
  end.

Definition isArray (v : jsval) : bool :=
  match v with JArr _ => true | _ => false end.

(** The argument a sanitizer sees: the string, or [None] for a value of
    any other type. *)
Definition as_string (v : jsval) : option jsstring :=
  match v with JStr s => Some s | _ => None end.

Fixpoint assoc (key : jsstring) (fields : list (jsstring * jsval))
    : option jsval :=
  match fields with
  | [] => None
  | (k, v) :: fields' => if JsString.eqb k key then Some v else assoc key fields'
  end.

Definition has_key (key : jsstring) (fields : list (jsstring * jsval)) : bool :=
  match assoc key fields with Some _ => true | None => false end.

Definition field (key : jsstring) (fields : list (jsstring * jsval)) : jsval :=
  match assoc key fields with Some v => v | None => JUndefined end.

(** What can be thrown. *)
Inductive error : Type :=
| TypeError
| ZodError
| Error (message : string).

Inductive completion (A : Type) : Type :=
| Normal (a : A)
| Throw (e : error).
Arguments Normal {A} a.
Arguments Throw {A} e.

#[export] Instance completion_ret : MRet completion := fun A a => Normal a.
#[export] Instance completion_bind : MBind completion :=
  fun A B k c =>
    match c with
    | Normal a => k a
    | Throw e => Throw e
    end.

(** [try { body } catch (error) { handler }] *)
Definition try_catch {A : Type} (body : completion A)
    (handler : error -> completion A) : completion A :=
  match body with
  | Normal a => Normal a
  | Throw e => handler e
  end.

(** [v.key]: reading a property of [undefined] or [null] throws; the
    keys read by the source are not own properties of arrays or of
    primitive values. *)
Definition get (v : jsval) (key : string) : completion jsval :=
  match v with
  | JUndefined | JNull => Throw TypeError
  | JObj fields => Normal (field (lit key) fields)
  | _ => Normal JUndefined
  end.

End JsValue.
Import JsValue.


(* ================================================================= *)
(** ** zod

    The schema library is not part of the repository; what follows is its
    documented behaviour for the constructors that [security.ts] uses. *)

Module Zod.

Inductive unknownKeys : Type := Strip | Strict | Passthrough.

(** The schema constructors the source uses. [ZNumber lo hi] is
    [z.number().finite()] with its optional [.min] and [.max] (every
    number schema of the source is [finite]); [ZObject] carries the
    shape, the unknown-keys policy and the catchall ([None] for zod's
    default, which is [never]); [ZTransform] and [ZRefine] are the two
    effects. *)
Inductive zschema : Type :=
| ZString (minLen maxLen : option nat)
| ZNumber (lo hi : option Q)
| ZBoolean
| ZEnum (values : list jsstring)
| ZAny
| ZOptional (inner : zschema)
| ZArray (item : zschema)
| ZRecord (value : zschema)
| ZObject (shape : list (jsstring * zschema)) (unknown : unknownKeys)
    (catchall : option zschema)
| ZTransform (inner : zschema) (f : jsval -> jsval)
| ZRefine (inner : zschema) (check : jsval -> jsval).

Definition opt_le_nat (lo : option nat) (n : nat) : bool :=
  match lo with Some m => m <=? n | None => true end.
Definition opt_ge_nat (hi : option nat) (n : nat) : bool :=
  match hi with Some m => n <=? m | None => true end.
Definition opt_le_Q (lo : option Q) (q : Q) : bool :=
  match lo with Some m => Qle_bool m q | None => true end.
Definition opt_ge_Q (hi : option Q) (q : Q) : bool :=
  match hi with Some m => Qle_bool q m | None => true end.

Definition shape_has (shape : list (jsstring * zschema)) (key : jsstring)
    : bool :=
  existsb (fun kv => JsString.eqb (fst kv) key) shape.

(** The own properties of the input that the shape does not declare. *)
Definition extra_keys (shape : list (jsstring * zschema))
    (fields : list (jsstring * jsval)) : list (jsstring * jsval) :=
  List.filter (fun kv => negb (shape_has shape (fst kv))) fields.

(** [schema.parse(v)] in synchronous mode: [Some] of the parsed (and
    transformed) value, [None] when zod collects at least one issue and
    [parse] throws a ZodError. A property of the result of an object
    schema is set when its parsed value is defined or the input had the
    key.

    Two things that zod and the JavaScript engine do to the result of an
    object schema are not part of this model. zod does not copy an own
    property named [__proto__] into the result; here it is parsed and
    kept like any other key. And a JavaScript object lists its keys that
    are array indices first, in ascending order, whatever the order in
    which they were set; here the fields of the result are in the order
    in which the parser sets them, the declared keys and then the
    undeclared ones. Neither changes which inputs are accepted, nor what
    the result holds under a key other than [__proto__]. *)
Fixpoint zparse (s : zschema) (v : jsval) {struct s} : option jsval :=
  match s with
  | ZString minLen maxLen =>
      match v with
      | JStr x =>
          if opt_le_nat minLen (length x) && opt_ge_nat maxLen (length x)
          then Some v else None
      | _ => None
      end
  | ZNumber lo hi =>
      match v with
      | JNum (Fin q) =>
          if opt_le_Q lo q && opt_ge_Q hi q then Some v else None
      | _ => None
      end
  | ZBoolean => match v with JBool _ => Some v | _ => None end
  | ZEnum values =>
      match v with
      | JStr x => if existsb (JsString.eqb x) values then Some v else None
      | _ => None
      end
  | ZAny => Some v
  | ZOptional inner =>
      match v with
      | JUndefined => Some JUndefined
      | _ => zparse inner v
      end
  | ZArray item =>
      match v with
      | JArr items =>
          option_map JArr
            ((fix each (l : list jsval) : option (list jsval) :=
                match l with
                | [] => Some []
                | x :: l' =>
                    match zparse item x, each l' with
                    | Some y, Some ys => Some (y :: ys)
                    | _, _ => None
                    end
                end) items)
      | _ => None
      end
  | ZRecord value =>
      match v with
      | JObj fields =>
          option_map JObj
            ((fix each (l : list (jsstring * jsval))
                : option (list (jsstring * jsval)) :=
                match l with
                | [] => Some []
                | (k, x) :: l' =>
                    match zparse value x, each l' with
                    | Some y, Some ys => Some ((k, y) :: ys)
                    | _, _ => None
                    end
                end) fields)
      | _ => None
      end
  | ZObject shape unknown catchall =>
      match v with
      | JObj fields =>
          let declared :=
            (fix each (sh : list (jsstring * zschema))
               : option (list (jsstring * jsval)) :=
               match sh with
               | [] => Some []
               | (k, sch) :: sh' =>
                   match zparse sch (field k fields), each sh' with
                   | Some y, Some ys =>
                       Some (match y with
                             | JUndefined =>
                                 if has_key k fields then (k, y) :: ys else ys
                             | _ => (k, y) :: ys
                             end)
                   | _, _ => None
                   end
               end) shape in
          let extra := extra_keys shape fields in
          match declared with
          | None => None
          | Some known =>
              match catchall with
              | None =>
                  match unknown with
                  | Passthrough => Some (JObj (known ++ extra))
                  | Strict =>
                      match extra with
                      | [] => Some (JObj known)
                      | _ :: _ => None
                      end
                  | Strip => Some (JObj known)
                  end
              | Some c =>
                  option_map (fun ys => JObj (known ++ ys))
                    ((fix each (l : list (jsstring * jsval))
                        : option (list (jsstring * jsval)) :=
                        match l with
                        | [] => Some []
                        | (k, x) :: l' =>
                            match zparse c x, each l' with
                            | Some y, Some ys => Some ((k, y) :: ys)
                            | _, _ => None
                            end
                        end) extra)
              end
          end
      | _ => None
      end
  | ZTransform inner f => option_map f (zparse inner v)
  | ZRefine inner check =>
      match zparse inner v with
      | Some y => if truthy (check y) then Some y else None
      | None => None
      end
  end.

(** [schema.parse(v)] as the caller sees it. *)
Definition parse (s : zschema) (v : jsval) : completion jsval :=
  match zparse s v with
  | Some y => Normal y
  | None => Throw ZodError
  end.

(** [.strict()] and [.catchall(c)] return the object schema with the
    policy, respectively the catchall, replaced. *)
Definition strict (s : zschema) : zschema :=
  match s with
  | ZObject shape _ catchall => ZObject shape Strict catchall
  | _ => s
  end.

Definition with_catchall (c : zschema) (s : zschema) : zschema :=
  match s with
  | ZObject shape unknown _ => ZObject shape unknown (Some c)
  | _ => s
  end.

Definition shape_of (s : zschema) : list (jsstring * zschema) :=
  match s with ZObject shape _ _ => shape | _ => [] end.

(** [z.object(shape)] *)
Definition object (shape : list (string * zschema)) : zschema :=
  ZObject (map (fun kv => (lit (fst kv), snd kv)) shape) Strip None.

Definition enum (values : list string) : zschema := ZEnum (map lit values).

End Zod.
Import Zod.

(* ================================================================= *)
(** ** security.ts: schemas and document validation *)

Module Drawing.
Local Open Scope string_scope.
Local Open Scope Q_scope.

(** [Math.PI], the double nearest to pi, and its double. *)
Definition Math_PI : Q := 884279719003555 # 281474976710656.
Definition two_PI : Q := 884279719003555 # 140737488355328.

Definition num (lo hi : Q) : zschema := ZNumber (Some lo) (Some hi).
Definition any_string : zschema := ZString None None.

Definition roundnessSchema : zschema :=
  object [ ("type", enum ["round"; "sharp"]); ("value", num 0 1) ].

Definition elementSchema : zschema :=
  strict (object
    [ ("id", ZString (Some 1%nat) (Some 100%nat));
      ("type", enum ["rectangle"; "ellipse"; "diamond"; "arrow"; "line";
                     "text"; "image"; "frame"; "embed"; "selection";
                     "text-container"]);
      ("x", num (-100000) 100000);
      ("y", num (-100000) 100000);
      ("width", num 0 100000);
      ("height", num 0 100000);
      ("angle", num (- two_PI) two_PI);
      ("strokeColor", ZOptional any_string);
      ("backgroundColor", ZOptional any_string);
      ("fillStyle", ZOptional (enum ["solid"; "hachure"; "cross-hatch"; "dots"]));
      ("strokeWidth", ZOptional (num 0 10));
      ("strokeStyle", ZOptional (enum ["solid"; "dashed"; "dotted"]));
      ("roundness", ZOptional roundnessSchema);
      ("boundElements",
        ZOptional (ZArray (object [ ("id", any_string); ("type", any_string) ])));
      ("groupIds", ZOptional (ZArray any_string));
      ("frameId", ZOptional any_string);
      ("seed", ZOptional (ZNumber None None));
      ("version", num 0 100000);
      ("versionNonce", num 0 100000);
      ("isDeleted", ZOptional ZBoolean);
      ("opacity", ZOptional (num 0 1));
      ("link", ZTransform (ZOptional any_string)
                 (fun val => JStr (sanitizeUrl (as_string val))));
      ("locked", ZOptional ZBoolean);
      ("text", ZTransform (ZOptional any_string)
                 (fun val => JStr (sanitizeText (as_string val) 5000)));
      ("fontSize", ZOptional (num 1 200));
      ("fontFamily", ZOptional (num 1 5));
      ("textAlign", ZOptional (enum ["left"; "center"; "right"]));
      ("verticalAlign", ZOptional (enum ["top"; "middle"; "bottom"]));
      ("customData", ZOptional (ZRecord ZAny)) ]).

(** The callback given to [refine] on the catchall of the app state. *)
Definition appState_extra_check (val : jsval) : jsval :=
  match val with
  | JStr s => JStr (sanitizeText (Some s) 1000)
  | _ => JBool true
  end.

Definition appState_fields : list (string * zschema) :=
  [ ("gridSize", ZOptional (num 0 100));
    ("gridStep", ZOptional (num 1 100));
    ("viewBackgroundColor", ZOptional any_string);
    ("currentItemStrokeColor", ZOptional any_string);
    ("currentItemBackgroundColor", ZOptional any_string);
    ("currentItemFillStyle",
      ZOptional (enum ["solid"; "hachure"; "cross-hatch"; "dots"]));
    ("currentItemStrokeWidth", ZOptional (num 0 10));
    ("currentItemStrokeStyle", ZOptional (enum ["solid"; "dashed"; "dotted"]));
    ("currentItemRoundness", ZOptional roundnessSchema);
    ("currentItemFontSize", ZOptional (num 1 200));
    ("currentItemFontFamily", ZOptional (num 1 5));
    ("currentItemTextAlign", ZOptional (enum ["left"; "center"; "right"]));
    ("currentItemVerticalAlign", ZOptional (enum ["top"; "middle"; "bottom"]));
    ("scrollX", ZOptional (num (-1000000) 1000000));
    ("scrollY", ZOptional (num (-1000000) 1000000));
    ("zoom", ZOptional (object [ ("value", num (1 # 10) 10) ]));
    ("selection", ZOptional (ZArray any_string));
    ("selectedElementIds", ZOptional (ZRecord ZBoolean));
    ("selectedGroupIds", ZOptional (ZRecord ZBoolean));
    ("activeEmbeddable",
      ZOptional (object [ ("elementId", any_string); ("state", any_string) ]));
    ("activeTool",
      ZOptional (object [ ("type", any_string);
                          ("customType", ZOptional any_string) ]));
    ("cursorX", ZOptional (ZNumber None None));
    ("cursorY", ZOptional (ZNumber None None)) ].

Definition appStateSchema : zschema :=
  with_catchall (ZRefine ZAny appState_extra_check)
    (strict (object appState_fields)).

(** [JSON.parse(JSON.stringify(v, replacer))] with the replacer of
    [sanitizeDrawingData]: every string goes through [sanitizeText] with
    the bound 10000; a value JSON cannot write is dropped from an object
    and written [null] in an array. *)
Fixpoint json_sanitize (v : jsval) : jsval :=
  match v with
  | JStr s => JStr (sanitizeText (Some s) 10000)
  | JNum (Fin q) => v
  | JNum _ => JNull
  | JArr items =>
      JArr ((fix each (l : list jsval) : list jsval :=
               match l with
               | [] => []
               | x :: l' =>
                   match json_sanitize x with
                   | JUndefined => JNull :: each l'
                   | y => y :: each l'
                   end
               end) items)
  | JObj fields =>
      JObj ((fix each (l : list (jsstring * jsval))
               : list (jsstring * jsval) :=
               match l with
               | [] => []
               | (k, x) :: l' =>
                   match json_sanitize x with
                   | JUndefined => each l'
                   | y => (k, y) :: each l'
                   end
               end) fields)
  | _ => v
  end.

Record SanitizedDrawing : Type := {
  elements : jsval;
  appState : jsval;
  files : jsval;
  preview : jsval
}.

Definition array_length (v : jsval) : nat :=
  match v with JArr items => length items | _ => 0%nat end.

Definition sanitizeDrawingData (data : jsval) : completion SanitizedDrawing :=
  try_catch
    (data_elements ← get data "elements";
     sanitizedElements ← parse (ZArray elementSchema) data_elements;
     data_appState ← get data "appState";
     sanitizedAppState ← parse appStateSchema data_appState;
     data_preview ← get data "preview";
     let sanitizedPreview :=
       match data_preview with
       | JStr s => JStr (sanitizeSvg (Some s))
       | _ => data_preview
       end in
     data_files ← get data "files";
     let sanitizedFiles :=
       match data_files with
       | JArr _ | JObj _ => json_sanitize data_files
       | _ => data_files
       end in
     Normal {| elements := sanitizedElements;
               appState := sanitizedAppState;
               files := sanitizedFiles;
               preview := sanitizedPreview |})
    (fun _ => Throw (Error "Invalid or malicious drawing data detected")).

Definition validateImportedDrawing (data : jsval) : completion bool :=
  try_catch
    (if negb (truthy data) || negb (is_object_type data) then Normal false
     else
       data_elements ← get data "elements";
       if negb (isArray data_elements) then Normal false
       else
         data_appState ← get data "appState";
         if negb (is_object_type data_appState) then Normal false
         else if (10000 <? Z.of_nat (array_length data_elements))%Z
         then Throw (Error "Drawing contains too many elements (max 10,000)")
         else
           sanitized ← sanitizeDrawingData data;
           if negb (array_length (elements sanitized)
                    =? array_length data_elements)%nat
           then Throw (Error "Element count mismatch after sanitization")
           else Normal true)
    (fun _ => Normal false).

End Drawing.
Import Drawing.

(* ================================================================= *)
(** ** auth.ts *)

Module Auth.
Local Open Scope Z_scope.

Definition SESSION_EXPIRY_MS : Z := 24 * 60 * 60 * 1000.
Definition BCRYPT_ROUNDS : Z := 12.
Definition LOGIN_RATE_LIMIT_WINDOW : Z := 15 * 60 * 1000.
Definition LOGIN_MAX_ATTEMPTS : Z := 5.

Record Attempts : Type := { count : Z; resetTime : Z }.

Record Session : Type := {
  id : jsstring;
  createdAt : Z;
  expiresAt : Z
}.

(** [process.env] *)
Record Env : Type := {
  ADMIN_USERNAME : option jsstring;
  ADMIN_PASSWORD : option jsstring
}.

(** *** Calls into [crypto] and [bcrypt]

    A computation is the list of the library calls it makes, in order,
    and how it completes. *)
Inductive event : Type :=
| TimingSafeEqual (a b : list N)
| BcryptHash (data : jsstring) (rounds : Z)
| BcryptCompare (data : jsstring) (hash : jsstring).

Definition eff (A : Type) : Type := list event * completion A.

#[export] Instance eff_ret : MRet eff := fun A a => ([], Normal a).
#[export] Instance eff_bind : MBind eff :=
  fun A B k m =>
    match m with
    | (t1, Normal a) => let (t2, r) := k a in ((t1 ++ t2)%list, r)
    | (t1, Throw e) => (t1, Throw e)
    end.

Definition call {A : Type} (ev : event) (result : A) : eff A :=
  ([ev], Normal result).
Definition throw {A : Type} (e : error) : eff A := ([], Throw e).

(** *** Buffers *)

Definition is_high_surrogate (c : N) : bool := between 55296 56319 c.
Definition is_low_surrogate (c : N) : bool := between 56320 57343 c.

(** The code points of a string; a lone surrogate is written as
    U+FFFD. *)
Fixpoint code_points (s : jsstring) : list N :=
  match s with
  | [] => []
  | c :: t =>
      match t with
      | d :: t' =>
          if is_high_surrogate c && is_low_surrogate d
          then (65536 + (c - 55296) * 1024 + (d - 56320))%N :: code_points t'
          else (if between 55296 57343 c then 65533%N else c) :: code_points t
      | [] => [if between 55296 57343 c then 65533%N else c]
      end
  end.

Definition utf8 (cp : N) : list N :=
  (if cp <? 128 then [cp]
   else if cp <? 2048 then [192 + cp / 64; 128 + cp mod 64]
   else if cp <? 65536
   then [224 + cp / 4096; 128 + (cp / 64) mod 64; 128 + cp mod 64]
   else [240 + cp / 262144; 128 + (cp / 4096) mod 64;
         128 + (cp / 64) mod 64; 128 + cp mod 64])%N.

(** The bytes [buf.write(string)] stores: whole characters, as long as
    they fit. *)
Fixpoint utf8_fitting (cps : list N) (room : nat) : list N :=
  match cps with
  | [] => []
  | cp :: cps' =>
      let bytes := utf8 cp in
      if (length bytes <=? room)%nat
      then (bytes ++ utf8_fitting cps' (room - length bytes)%nat)%list
      else []
  end.

Definition Buffer_alloc (size : nat) : list N := repeat 0%N size.

Definition Buffer_write (buf : list N) (s : jsstring) : list N :=
  let written := utf8_fitting (code_points s) (length buf) in
  (written ++ skipn (length written) buf)%list.

Definition crypto_timingSafeEqual (a b : list N) : eff bool :=
  if (length a =? length b)%nat
  then call (TimingSafeEqual a b) (bool_decide (a = b))
  else throw (Error "Input buffers must have the same byte length").

(** *** Credentials *)

Section Credentials.
(** The two functions of the bcrypt library; the salt that
    [bcrypt.hash] draws is an argument. *)
Variable bcrypt_hash_value : jsstring -> Z -> list N -> jsstring.
Variable bcrypt_compare_value : jsstring -> jsstring -> bool.

Definition bcrypt_hash (data : jsstring) (rounds : Z) (salt : list N)
    : eff jsstring :=
  call (BcryptHash data rounds) (bcrypt_hash_value data rounds salt).

Definition bcrypt_compare (data hash : jsstring) : eff bool :=
  call (BcryptCompare data hash) (bcrypt_compare_value data hash).

(** The module variable [hashedPassword] is the state: [initializeAuth]
    returns its new value, [verifyCredentials] reads it. *)
Definition initializeAuth (env : Env) (salt : list N)
    : eff (option jsstring) :=
  let adminPassword := ADMIN_PASSWORD env in
  let adminUsername := ADMIN_USERNAME env in
  match adminUsername with
  | None | Some [] =>
      throw (Error "ADMIN_USERNAME environment variable is required")
  | Some username =>
      if (length (trim username) =? 0)%nat
      then throw (Error "ADMIN_USERNAME environment variable is required")
      else
        match adminPassword with
        | None | Some [] =>
            throw (Error "ADMIN_PASSWORD environment variable is required (minimum 8 characters)")
        | Some password =>
            if (length password <? 8)%nat
            then throw (Error "ADMIN_PASSWORD environment variable is required (minimum 8 characters)")
            else
              hashed ← bcrypt_hash password BCRYPT_ROUNDS salt;
              mret (Some hashed)
        end
  end.

Definition verifyCredentials (env : Env) (hashedPassword : option jsstring)
    (username password : jsstring) : eff bool :=
  match hashedPassword with
  | None | Some [] => throw (Error "Auth not initialized")
  | Some hashed =>
      match ADMIN_USERNAME env with
      | None => throw TypeError
      | Some adminUsername =>
          let maxLength :=
            Nat.max (length username) (Nat.max (length adminUsername) 256) in
          let userBuffer := Buffer_write (Buffer_alloc maxLength) username in
          let adminBuffer := Buffer_write (Buffer_alloc maxLength) adminUsername in
          equal ← crypto_timingSafeEqual userBuffer adminBuffer;
          let usernameValid :=
            equal && (length username =? length adminUsername)%nat in
          passwordValid ← bcrypt_compare password hashed;
          mret (usernameValid && passwordValid)
      end
  end.

End Credentials.

(** *** Sessions

    The table [sessions] is threaded through; [Date.now()] and the
    random bytes are arguments, one per call in the source. *)

Definition hex_digit (n : N) : N := (if n <? 10 then 48 + n else 87 + n)%N.

(** [bytes.toString("hex")] *)
Definition toHex (bytes : list N) : jsstring :=
  flat_map (fun b => [hex_digit (b / 16); hex_digit (b mod 16)]%N) bytes.

Definition createSession (randomBytes : list N) (now1 now2 : Z)
    (sessions : gmap jsstring Session) : Session * gmap jsstring Session :=
  let session := {| id := toHex randomBytes;
                    createdAt := now1;
                    expiresAt := now2 + SESSION_EXPIRY_MS |} in
  (session, <[id session := session]> sessions).

Definition getSession (sessionId : jsstring) (now : Z)
    (sessions : gmap jsstring Session)
    : option Session * gmap jsstring Session :=
  match sessions !! sessionId with
  | None => (None, sessions)
  | Some session =>
      if now >? expiresAt session
      then (None, delete sessionId sessions)
      else (Some session, sessions)
  end.

Definition destroySession (sessionId : jsstring)
    (sessions : gmap jsstring Session) : gmap jsstring Session :=
  delete sessionId sessions.

(** The callback of [setInterval]. *)
Definition sweep (now : Z) (sessions : gmap jsstring Session)
    : gmap jsstring Session :=
  filter (fun kv => ¬ (now > expiresAt (snd kv))) sessions.

(** *** Login rate limiting *)

Record Request : Type := {
  ip : option jsstring;
  remoteAddress : option jsstring
}.

(** [a || b] on strings that may be undefined: an empty string is
    falsy. *)
Definition or_else (a : option jsstring) (b : jsstring) : jsstring :=
  match a with
  | Some (c :: s) => c :: s
  | _ => b
  end.

Definition client_ip (req : Request) : jsstring :=
  or_else (ip req) (or_else (remoteAddress req) (lit "unknown")).

(** What the middleware does with the request: call [next()], or answer
    429 with [retryAfter] in the [Retry-After] header and in the body. *)
Inductive Verdict : Type :=
| Next
| TooManyRequests (retryAfter : Z).

(** [Math.ceil(ms / 1000)] on an integral number of milliseconds. *)
Definition ceil_seconds (ms : Z) : Z := - ((- ms) / 1000).

Definition loginRateLimit (req : Request) (now : Z)
    (loginAttempts : gmap jsstring Attempts)
    : Verdict * gmap jsstring Attempts :=
  let ip := client_ip req in
  match loginAttempts !! ip with
  | Some attempts =>
      if now >? resetTime attempts
      then (Next, <[ip := {| count := 1;
                             resetTime := now + LOGIN_RATE_LIMIT_WINDOW |}]>
                    loginAttempts)
      else if count attempts >=? LOGIN_MAX_ATTEMPTS
      then (TooManyRequests (ceil_seconds (resetTime attempts - now)),
            loginAttempts)
      else (Next, <[ip := {| count := count attempts + 1;
                             resetTime := resetTime attempts |}]>
                    loginAttempts)
  | None =>
      (Next, <[ip := {| count := 1;
                        resetTime := now + LOGIN_RATE_LIMIT_WINDOW |}]>
               loginAttempts)
  end.

(** A run of requests, each at its own reading of the clock. *)
Fixpoint loginRateLimit_run (reqs : list (Request * Z))
    (loginAttempts : gmap jsstring Attempts)
    : list Verdict * gmap jsstring Attempts :=
  match reqs with
  | [] => ([], loginAttempts)
  | (req, now) :: reqs' =>
      let (v, m) := loginRateLimit req now loginAttempts in
      let (vs, m') := loginRateLimit_run reqs' m in
      (v :: vs, m')
  end.

End Auth.
Import Auth.

(* ================================================================= *)
(** ** Notions used in the statements *)

Module Props.
Local Open Scope string_scope.

(** [st'] is reached from [st] by consuming at least [n] code units of
    the input. *)
Definition extends (st st' : mstate) (n : nat) : Prop :=
  exists cs : list N,
    m_rest st = (cs ++ m_rest st')%list
    /\ m_end st' = (m_end st + length cs)%nat
    /\ (n <= length cs)%nat.

(** None of the three patterns of the sanitizers' first passes matches
    anywhere in [s]: no script block, no [javascript:], no inline event
    handler. *)
Definition clean (s : jsstring) : Prop :=
  ~ occurs script_re s /\ ~ occurs javascript_re s /\ ~ occurs handler_re s.

(** The passes of the two sanitizers, in the order of the source: each
    is a pattern and the text that replaces its matches. *)
Definition run_passes (passes : list (regex * jsstring)) (s : jsstring)
    : jsstring :=
  fold_left (fun acc pass => replace_all (fst pass) (snd pass) acc) passes s.

Definition html_passes : list (regex * jsstring) :=
  [ (script_re, []); (javascript_re, []); (handler_re, []); (iframe_re, []);
    (object_re, []); (embed_re, []); (link_re, []); (style_re, []) ].

Definition svg_passes : list (regex * jsstring) :=
  [ (script_re, []); (javascript_re, []); (handler_re, []);
    (foreignObject_re, []);
    (href_re, (lit " href=" ++ dquote ++ lit "#" ++ dquote)%list);
    (xlink_href_re, (lit " xlink:href=" ++ dquote ++ lit "#" ++ dquote)%list) ].

(** Every match of the pass is longer than the text that replaces it. *)
Definition shortening (pass : regex * jsstring) : Prop :=
  (length (snd pass) < min_len (fst pass))%nat.

(** [s] begins with [p], letters compared without regard to case. *)
Fixpoint prefix_ci (p s : jsstring) : bool :=
  match p, s with
  | [], _ => true
  | a :: p', b :: s' => (canonicalize b =? canonicalize a)%N && prefix_ci p' s'
  | _ :: _, [] => false
  end.

Definition begins_with_any (prefixes : list string) (s : jsstring) : bool :=
  existsb (fun p => prefix_ci (lit p) s) prefixes.

Definition blocked_schemes : list string :=
  ["javascript:"; "data:"; "vbscript:"].

Definition allowed_prefixes : list string :=
  ["http://"; "https://"; "mailto:"; "/"; "./"; "../"].

(** The state after consuming [n] code units. *)
Fixpoint advance (st : mstate) (n : nat) : mstate :=
  match n, m_rest st with
  | S n', c :: tl => advance (MState (Some c) tl (S (m_end st))) n'
  | _, _ => st
  end.

(** [denotes r ws]: the pattern [r], made of literals under the [i]
    flag, sequencing and alternation, matches exactly the words [ws], in
    this order of preference. *)
Inductive denotes : regex -> list (list N) -> Prop :=
| denotes_Empty : denotes Empty [[]]
| denotes_Char p c :
    (forall x, p x = ci c x) -> denotes (Char p) [[c]]
| denotes_Seq r1 r2 ws1 ws2 :
    denotes r1 ws1 -> denotes r2 ws2 ->
    denotes (Seq r1 r2)
      (flat_map (fun w1 => map (fun w2 => (w1 ++ w2)%list) ws2) ws1)
| denotes_Alt r1 r2 ws1 ws2 :
    denotes r1 ws1 -> denotes r2 ws2 -> denotes (Alt r1 r2) (ws1 ++ ws2)%list.

(** [s] begins with one of the prefixes as they are written, letter for
    letter. *)
Definition begins_with_exactly (prefixes : list string) (s : jsstring) : bool :=
  existsb (fun p => starts_with (lit p) s) prefixes.

(** The contract of [sanitizeUrl] as the specification words it: the
    three blocked schemes in any letter case, the six allowed prefixes as
    they are written, the empty string for every other value. *)
Definition sanitizeUrl_stated (url : option jsstring) : jsstring :=
  match url with
  | None => []
  | Some s =>
      let t := trim s in
      if begins_with_any blocked_schemes t then []
      else if begins_with_exactly allowed_prefixes t then t
      else []
  end.

(** The same contract with the allowed prefixes, too, compared without
    regard to the case of letters. This is not what the specification
    says; it is what the two patterns of the source, both with the [i]
    flag, do. *)
Definition sanitizeUrl_any_case (url : option jsstring) : jsstring :=
  match url with
  | None => []
  | Some s =>
      let t := trim s in
      if begins_with_any blocked_schemes t then []
      else if begins_with_any allowed_prefixes t then t
      else []
  end.

(** *** Documents *)

Definition obj (fields : list (string * jsval)) : jsval :=
  JObj (map (fun kv => (lit (fst kv), snd kv)) fields).

Definition int (z : Z) : jsval := JNum (Fin (inject_Z z)).

Definition str (s : string) : jsval := JStr (lit s).

(** An element with the required fields only. *)
Definition minimal_element : jsval :=
  obj [ ("id", str "a"); ("type", str "rectangle"); ("x", int 0);
        ("y", int 0); ("width", int 0); ("height", int 0); ("angle", int 0);
        ("version", int 0); ("versionNonce", int 0) ].

Definition document (elems : list jsval) (appState : jsval) : jsval :=
  obj [ ("elements", JArr elems); ("appState", appState) ].

Definition sanitization_succeeds (data : jsval) : bool :=
  match sanitizeDrawingData data with
  | Normal _ => true
  | Throw _ => false
  end.

(** The checks of [validateImportedDrawing] in the words of the
    specification: the document is an object, [elements] is an array,
    [appState] is an object, there are at most 10000 elements, and
    sanitization succeeds. *)
Definition document_checks (data : jsval) : bool :=
  match data with
  | JObj fields =>
      isArray (field (lit "elements") fields)
      && is_object_type (field (lit "appState") fields)
      && (Z.of_nat (array_length (field (lit "elements") fields)) <=? 10000)%Z
      && sanitization_succeeds data
  | _ => false
  end.

Definition is_plain_object (v : jsval) : bool :=
  match v with JObj _ => true | _ => false end.

(** The drawing of the repository's security test (test 5). *)
Definition maliciousDrawing : jsval :=
  obj [ ("elements",
          JArr [ obj [ ("id", str "test1"); ("type", str "text"); ("x", int 0);
                       ("y", int 0); ("width", int 100); ("height", int 50);
                       ("angle", int 0); ("version", int 1);
                       ("versionNonce", int 1);
                       ("text", str "<script>alert('XSS')</script>Malicious text") ];
                 obj [ ("id", str "test2"); ("type", str "rectangle");
                       ("x", int 10); ("y", int 10); ("width", int 100);
                       ("height", int 100); ("angle", int 0); ("version", int 1);
                       ("versionNonce", int 1);
                       ("link", str "javascript:alert('XSS')") ] ]);
        ("appState",
          obj [ ("viewBackgroundColor", str "<script>alert('XSS')</script>") ]);
        ("files", JNull);
        ("preview",
          JStr (lit "<svg><script>alert(" ++ quoted (lit "XSS")
                ++ lit ")</script></svg>")) ].

End Props.
Import Props.

(* ================================================================= *)
(** ** auth.ts: cookie options and the authentication gate *)

Module Gate.
Local Open Scope Z_scope.

Definition SESSION_COOKIE_NAME : jsstring := lit "excalidash_session".

Record CookieOptions : Type := {
  httpOnly : bool;
  secure : bool;
  sameSite : jsstring;
  maxAge : Z;
  path : jsstring
}.

(** [maxAge ?? SESSION_EXPIRY_MS]: only a missing argument takes the
    default. [NODE_ENV] is [process.env.NODE_ENV]. *)
Definition getCookieOptions (NODE_ENV : option jsstring) (maxAge : option Z)
    : CookieOptions :=
  {| httpOnly := true;
     secure := bool_decide (NODE_ENV = Some (lit "production"));
     sameSite := lit "strict";
     maxAge := match maxAge with Some m => m | None => SESSION_EXPIRY_MS end;
     path := lit "/" |}.

(** What [requireAuth] reads of the request: [req.cookies], which is
    absent without the cookie parser. *)
Record GateRequest : Type := {
  cookies : option (gmap jsstring jsstring)
}.

(** [req.cookies?.[SESSION_COOKIE_NAME]] *)
Definition session_cookie (req : GateRequest) : option jsstring :=
  match cookies req with
  | Some jar => jar !! SESSION_COOKIE_NAME
  | None => None
  end.

(** What the gate does: answer [status] with [{ error }], after clearing
    the named cookie when [cleared] is given; or attach the session to the
    request and call [next()]. *)
Inductive GateResult : Type :=
| Rejected (status : Z) (error : string)
    (cleared : option (jsstring * CookieOptions))
| Attached (session : Session).

Definition requireAuth (NODE_ENV : option jsstring) (req : GateRequest)
    (now : Z) (sessions : gmap jsstring Session)
    : GateResult * gmap jsstring Session :=
  match session_cookie req with
  | None | Some [] =>
      (Rejected 401 "Authentication required" None, sessions)
  | Some sessionId =>
      match getSession sessionId now sessions with
      | (None, sessions') =>
          (Rejected 401 "Session expired"
             (Some (SESSION_COOKIE_NAME, getCookieOptions NODE_ENV (Some 0))),
           sessions')
      | (Some session, sessions') => (Attached session, sessions')
      end
  end.

End Gate.
Import Gate.

(* ================================================================= *)
(** ** Further notions used in the statements *)

Module MoreProps.

(** The three characters one of which every pattern of the sanitizers
    needs: [<], [:] and [=]. *)
Definition markup_char (c : N) : bool :=
  (c =? 60)%N || (c =? 58)%N || (c =? 61)%N.

(** [requires q r]: every match of [r] holds a code unit that satisfies
    [q]. *)
Inductive requires (q : N -> bool) : regex -> Prop :=
| requires_Char p :
    (forall x, p x = true -> q x = true) -> requires q (Char p)
| requires_Seq_l r1 r2 : requires q r1 -> requires q (Seq r1 r2)
| requires_Seq_r r1 r2 : requires q r2 -> requires q (Seq r1 r2)
| requires_Alt r1 r2 :
    requires q r1 -> requires q r2 -> requires q (Alt r1 r2).

(** A string that [trim] leaves as it is. *)
Definition trimmed (s : jsstring) : Prop := trim s = s.

(** What [sanitizeText] guarantees of its result for the bound [bound]. *)
Definition text_safe (bound : Z) (s : jsstring) : Prop :=
  (Z.of_nat (length s) <= bound)%Z /\ Forall (fun c => is_control c = false) s.

(** What [sanitizeUrl] guarantees of its result. *)
Definition url_safe (u : jsstring) : Prop :=
  begins_with_any blocked_schemes u = false
  /\ (u = [] \/ begins_with_any allowed_prefixes u = true).

(** [P] holds of every string value in [v], at any depth; property names
    are not values. *)
Fixpoint all_strings (P : jsstring -> Prop) (v : jsval) : Prop :=
  match v with
  | JStr s => P s
  | JArr items =>
      (fix each (l : list jsval) : Prop :=
         match l with
         | [] => True
         | x :: l' => all_strings P x /\ each l'
         end) items
  | JObj fields =>
      (fix each (l : list (jsstring * jsval)) : Prop :=
         match l with
         | [] => True
         | (_, x) :: l' => all_strings P x /\ each l'
         end) fields
  | _ => True
  end.

Definition array_items (v : jsval) : list jsval :=
  match v with JArr items => items | _ => [] end.

(** The parsed declared properties of an object schema: the first loop
    of [zparse] on [ZObject], as a function of its own. *)
Fixpoint parse_shape (shape : list (jsstring * zschema))
    (fields : list (jsstring * jsval)) : option (list (jsstring * jsval)) :=
  match shape with
  | [] => Some []
  | (k, sch) :: shape' =>
      match zparse sch (field k fields), parse_shape shape' fields with
      | Some y, Some ys =>
          Some (match y with
                | JUndefined => if has_key k fields then (k, y) :: ys else ys
                | _ => (k, y) :: ys
                end)
      | _, _ => None
      end
  end.

(** The values of the unknown properties checked by the catchall: the
    last loop of [zparse] on [ZObject]. *)
Fixpoint parse_each (c : zschema) (l : list (jsstring * jsval))
    : option (list (jsstring * jsval)) :=
  match l with
  | [] => Some []
  | (k, x) :: l' =>
      match zparse c x, parse_each c l' with
      | Some y, Some ys => Some ((k, y) :: ys)
      | _, _ => None
      end
  end.

(** Every entry of the session table is stored under its own token. *)
Definition keyed (sessions : gmap jsstring Session) : Prop :=
  forall token session, sessions !! token = Some session -> id session = token.

(** Every login counter is between 1 and the maximum. *)
Definition counters_bounded (loginAttempts : gmap jsstring Attempts) : Prop :=
  forall ip attempts,
    loginAttempts !! ip = Some attempts ->
    (1 <= count attempts <= LOGIN_MAX_ATTEMPTS)%Z.

(** A code unit that UTF-8 writes in two bytes. *)
Definition two_byte (c : N) : Prop := (128 <= c < 2048)%N.

(** The user-name check of [verifyCredentials]. *)
Definition usernameValid (username adminUsername : jsstring) : bool :=
  let maxLength :=
    Nat.max (length username) (Nat.max (length adminUsername) 256) in
  bool_decide (Buffer_write (Buffer_alloc maxLength) username
               = Buffer_write (Buffer_alloc maxLength) adminUsername)
  && (length username =? length adminUsername)%nat.

(** The answers of the limiter to [reqs] when the client's counter stands
    at [count] with reset time [reset] and no request comes after it: the
    first [5 - count] pass, the others are turned away. *)
Definition window_verdicts (count reset : Z) (reqs : list (Request * Z))
    : list Verdict :=
  let room := Z.to_nat (LOGIN_MAX_ATTEMPTS - count) in
  (repeat Next (Nat.min (length reqs) room)
   ++ map (fun rt => TooManyRequests (ceil_seconds (reset - snd rt)))
        (skipn room reqs))%list.

(** Whether a request of a run comes from the client [client]. *)
Definition from_client (client : jsstring) (rt : Request * Z) : bool :=
  bool_decide (client_ip (fst rt) = client).

(** The answers that the client [client] gets in a run. *)
Definition verdicts_for (client : jsstring) (reqs : list (Request * Z))
    (loginAttempts : gmap jsstring Attempts) : list Verdict :=
  map snd
    (List.filter (fun p => from_client client (fst p))
       (combine reqs (fst (loginRateLimit_run reqs loginAttempts)))).

End MoreProps.
Import MoreProps.

(* ================================================================= *)
(** ** Matches, and inputs whose occurrences stand side by side *)

Module Occurrences.
Local Open Scope string_scope.

(** The code unit before the position reached by reading [w]. *)
Definition prev_after (prev : option N) (w : jsstring) : option N :=
  match last w with
  | Some c => Some c
  | None => prev
  end.

(** [derives r prev w rest]: the pattern [r] can match the word [w] at a
    position where the code unit before is [prev] and the input after
    the match is [rest]. A negative lookahead asks the matcher itself. *)
Inductive derives : regex -> option N -> jsstring -> jsstring -> Prop :=
| derives_Empty prev rest : derives Empty prev [] rest
| derives_Char p c prev rest :
    p c = true -> derives (Char p) prev [c] rest
| derives_Seq r1 r2 prev w1 w2 rest :
    derives r1 prev w1 (w2 ++ rest)%list ->
    derives r2 (prev_after prev w1) w2 rest ->
    derives (Seq r1 r2) prev (w1 ++ w2)%list rest
| derives_Alt_l r1 r2 prev w rest :
    derives r1 prev w rest -> derives (Alt r1 r2) prev w rest
| derives_Alt_r r1 r2 prev w rest :
    derives r2 prev w rest -> derives (Alt r1 r2) prev w rest
| derives_Star_nil r prev rest : derives (Star r) prev [] rest
| derives_Star_cons r prev w1 w2 rest :
    derives r prev w1 (w2 ++ rest)%list ->
    derives (Star r) (prev_after prev w1) w2 rest ->
    derives (Star r) prev (w1 ++ w2)%list rest
| derives_NotAhead r prev rest :
    rmatch r (MState prev rest 0) (fun _ => Some 0%nat) = None ->
    derives (NotAhead r) prev [] rest
| derives_Bol rest : derives Bol None [] rest
| derives_WordBoundary prev rest :
    xorb (is_word_opt prev) (is_word_opt (head rest)) = true ->
    derives WordBoundary prev [] rest.



(** The parts of an input in which the occurrences of the three patterns
    stand side by side in plain text:
    - text;
    - a script block, [<script], a body and [</script>];
    - a [javascript:] URI;
    - an inline event handler, [on], a name, white space, [=], white
      space, a quote, a value and a quote. *)
Inductive part : Type :=
| Text (t : jsstring)
| ScriptBlock (open body close : jsstring)
| JavascriptUri (j : jsstring)
| Handler (on name space1 space2 : jsstring) (quote1 : N)
    (value : jsstring) (quote2 : N).

Definition written (o : part) : jsstring :=
  match o with
  | Text t => t
  | ScriptBlock open body close => (open ++ body ++ close)%list
  | JavascriptUri j => j
  | Handler on name space1 space2 quote1 value quote2 =>
      (on ++ name ++ space1 ++ [61%N] ++ space2 ++ [quote1] ++ value
       ++ [quote2])%list
  end.






End Occurrences.
Import Occurrences.

(* ================================================================= *)
(** * Facts about the matcher *)

Section MatcherFacts.

Lemma extends_refl st : extends st st 0.
Proof. exists []. simpl. repeat split; lia. Qed.

Lemma extends_weaken st st' n m :
  (m <= n)%nat -> extends st st' n -> extends st st' m.
Proof. intros Hle (cs & H1 & H2 & H3). exists cs. repeat split; auto; lia. Qed.

Lemma extends_trans st1 st2 st3 n m :
  extends st1 st2 n -> extends st2 st3 m -> extends st1 st3 (n + m).
Proof.
  intros (cs & H1 & H2 & H3) (ds & G1 & G2 & G3).
  exists (cs ++ ds)%list. rewrite length_app, H1, G1, <- app_assoc.
  repeat split; auto; lia.
Qed.

(** A successful repetition ends in a state the continuation accepted. *)
Lemma star_loop_sound step k :
  (forall st0 k0 n0, step st0 k0 = Some n0 ->
     exists st1, k0 st1 = Some n0 /\ extends st0 st1 0) ->
  forall fuel st n,
    star_loop step k fuel st = Some n ->
    exists st', k st' = Some n /\ extends st st' 0.
Proof.
  intros Hstep. induction fuel as [|fuel IH]; intros st n; simpl.
  - intros Hk. exists st. split; [assumption | apply extends_refl].
  - destruct (step st _) as [n0|] eqn:E.
    + intros [= <-]. apply Hstep in E as (st1 & Hk1 & Hext).
      destruct (m_end st <? m_end st1)%nat; [|discriminate].
      apply IH in Hk1 as (st' & Hk' & Hext').
      exists st'. split; [assumption|].
      apply (extends_trans _ _ _ 0 0 Hext Hext').
    + intros Hk. exists st. split; [assumption | apply extends_refl].
Qed.

(** Whatever [rmatch] returns was returned by its continuation, at a
    state further along the same input by at least [min_len r]. *)
Lemma rmatch_sound r : forall st k n,
  rmatch r st k = Some n ->
  exists st', k st' = Some n /\ extends st st' (min_len r).
Proof.
  induction r as [|p|r1 IH1 r2 IH2|r1 IH1 r2 IH2|r1 IH1|r1 IH1| |];
    intros st k n; simpl.
  - intros H. exists st. split; [assumption | apply extends_refl].
  - destruct st as [pv rest e]; simpl.
    destruct rest as [|c tl]; [discriminate|].
    destruct (p c); [|discriminate]. intros H.
    eexists. split; [exact H|]. exists [c]. simpl. repeat split; lia.
  - intros H. apply IH1 in H as (st1 & H & Hext1).
    apply IH2 in H as (st2 & H & Hext2).
    exists st2. split; [assumption|]. eapply extends_trans; eassumption.
  - destruct (rmatch r1 st k) as [n1|] eqn:E.
    + intros [= <-]. apply IH1 in E as (st' & H & Hext).
      exists st'. split; [assumption|].
      eapply extends_weaken; [|exact Hext]. lia.
    + intros H. apply IH2 in H as (st' & H & Hext).
      exists st'. split; [assumption|].
      eapply extends_weaken; [|exact Hext]. lia.
  - apply star_loop_sound. intros st0 k0 n0 H.
    apply IH1 in H as (st1 & H & Hext). exists st1. split; [assumption|].
    eapply extends_weaken; [|exact Hext]. lia.
  - destruct (rmatch r1 st _); [discriminate|].
    intros H. exists st. split; [assumption | apply extends_refl].
  - destruct (m_prev st); [discriminate|].
    intros H. exists st. split; [assumption | apply extends_refl].
  - destruct (at_word_boundary st); [|discriminate].
    intros H. exists st. split; [assumption | apply extends_refl].
Qed.

(** A match is at least [min_len r] long and stays inside the input. *)
Lemma regex_exec_bound r prev s n :
  regex_exec r prev s = Some n ->
  (min_len r <= n)%nat /\ (n <= length s)%nat.
Proof.
  unfold regex_exec. intros H.
  apply rmatch_sound in H as (st' & [= <-] & cs & H1 & H2 & H3).
  simpl in *. subst s. rewrite H2, length_app. lia.
Qed.






End MatcherFacts.

(* ================================================================= *)
(** * Facts about global replacement and trimming *)

Section ReplaceFacts.

Lemma sublist_same_length {A : Type} (l1 l2 : list A) :
  l1 `sublist_of` l2 -> length l1 = length l2 -> l1 = l2.
Proof.
  induction 1 as [|x l1 l2 _ IH|x l1 l2 Hsub _]; simpl; intros Hlen.
  - reflexivity.
  - f_equal. apply IH. lia.
  - apply sublist_length in Hsub. lia.
Qed.

(** Deleting the matches leaves a subsequence of the input. *)
Lemma replace_scan_sublist r : forall s prev skip,
  replace_scan r [] prev s skip `sublist_of` s.
Proof.
  induction s as [|c s IH]; intros prev skip; simpl.
  - destruct skip; [destruct (regex_exec r prev [])|]; constructor.
  - destruct skip as [|skip].
    + destruct (regex_exec r prev (c :: s)) as [[|n]|]; simpl.
      * apply sublist_skip, IH.
      * apply sublist_cons, IH.
      * apply sublist_skip, IH.
    + apply sublist_cons, IH.
Qed.

Lemma replace_all_sublist r s : replace_all r [] s `sublist_of` s.
Proof. apply replace_scan_sublist. Qed.

(** A replacement text no longer than the shortest match never
    lengthens the string. *)
Lemma replace_scan_length r repl :
  (length repl <= min_len r)%nat ->
  forall s prev skip,
    (skip <= length s)%nat ->
    (length (replace_scan r repl prev s skip) + skip <= length s)%nat.
Proof.
  intros Hrepl. induction s as [|c s IH]; intros prev skip Hskip; simpl in *.
  - destruct skip; [|lia].
    destruct (regex_exec r prev []) as [n|] eqn:E; simpl; [|lia].
    apply regex_exec_bound in E. simpl in E. lia.
  - destruct skip as [|skip].
    + destruct (regex_exec r prev (c :: s)) as [[|n]|] eqn:E.
      * apply regex_exec_bound in E.
        rewrite length_app. simpl. specialize (IH (Some c) 0%nat). lia.
      * apply regex_exec_bound in E. simpl in E.
        rewrite length_app. specialize (IH (Some c) n). lia.
      * simpl. specialize (IH (Some c) 0%nat). lia.
    + specialize (IH (Some c) skip). lia.
Qed.

Lemma replace_all_length r repl s :
  (length repl <= min_len r)%nat ->
  (length (replace_all r repl s) <= length s)%nat.
Proof.
  intros H. pose proof (replace_scan_length r repl H s None 0%nat). 
  unfold replace_all. lia.
Qed.

(** A string that a deleting pass leaves unchanged holds no match. *)
Lemma replace_scan_fixed r :
  (1 <= min_len r)%nat ->
  forall s prev,
    replace_scan r [] prev s 0 = s -> ~ occurs_from r prev s.
Proof.
  intros Hmin. induction s as [|c s IH]; intros prev; simpl.
  - intros _ [[n E]|[]]. apply regex_exec_bound in E. simpl in E. lia.
  - destruct (regex_exec r prev (c :: s)) as [[|n]|] eqn:E.
    + apply regex_exec_bound in E. lia.
    + simpl. intros Heq. exfalso.
      apply regex_exec_bound in E. simpl in E.
      pose proof (replace_scan_length r [] ltac:(simpl; lia) s (Some c) n
                    ltac:(lia)) as Hlen.
      rewrite Heq in Hlen. simpl in Hlen. lia.
    + intros [= Heq] [[n Hn]|Hocc]; [discriminate|].
      exact (IH (Some c) Heq Hocc).
Qed.

Lemma replace_all_fixed r s :
  (1 <= min_len r)%nat -> replace_all r [] s = s -> ~ occurs r s.
Proof. intros Hmin. apply replace_scan_fixed, Hmin. Qed.

Lemma occurs_from_search r : forall s prev,
  occurs_from r prev s <-> regex_search r prev s = true.
Proof.
  induction s as [|c s IH]; intros prev; simpl.
  - destruct (regex_exec r prev []); split; auto.
    + intros [[x [=]]|[]].
    + discriminate.
  - destruct (regex_exec r prev (c :: s)).
    + split; auto.
    + rewrite <- IH. split; [intros [[x [=]]|H]; exact H | auto].
Qed.

Lemma occurs_test r s : occurs r s <-> regex_test r s = true.
Proof. apply occurs_from_search. Qed.

Lemma trimStart_suffix s : exists k, s = (k ++ trimStart s)%list.
Proof.
  induction s as [|c s [k IH]]; simpl.
  - exists []. reflexivity.
  - destruct (is_space c).
    + exists (c :: k). simpl. f_equal. exact IH.
    + exists []. reflexivity.
Qed.

Lemma trimEnd_prefix s : exists k, s = (trimEnd s ++ k)%list.
Proof.
  unfold trimEnd. destruct (trimStart_suffix (rev s)) as [k Hk].
  exists (rev k). rewrite <- rev_app_distr, <- Hk, rev_involutive. reflexivity.
Qed.

Lemma trim_sublist s : trim s `sublist_of` s.
Proof.
  unfold trim.
  destruct (trimStart_suffix s) as [k Hk].
  destruct (trimEnd_prefix (trimStart s)) as [k' Hk'].
  rewrite Hk at 2. rewrite Hk' at 2.
  apply sublist_inserts_l, sublist_inserts_r. reflexivity.
Qed.

End ReplaceFacts.

(* ================================================================= *)
(** * The string sanitizers *)

Section SanitizerFacts.

Lemma sanitizeHtml_passes s : sanitizeHtml_str s = trim (run_passes html_passes s).
Proof. reflexivity. Qed.

Lemma sanitizeSvg_passes s : sanitizeSvg_str s = trim (run_passes svg_passes s).
Proof. reflexivity. Qed.

Lemma html_passes_shortening : Forall shortening html_passes.
Proof. repeat constructor; vm_compute; lia. Qed.

Lemma svg_passes_shortening : Forall shortening svg_passes.
Proof. repeat constructor; vm_compute; lia. Qed.

Lemma sanitizeHtml_sublist s : sanitizeHtml_str s `sublist_of` s.
Proof.
  unfold sanitizeHtml_str.
  repeat (etransitivity; [first [apply trim_sublist | apply replace_all_sublist]|]).
  reflexivity.
Qed.

Lemma trim_length s : (length (trim s) <= length s)%nat.
Proof. apply sublist_length, trim_sublist. Qed.

Lemma trim_same_length s : length (trim s) = length s -> trim s = s.
Proof. apply sublist_same_length, trim_sublist. Qed.

(** A shortening pass that keeps the length has found no match and has
    changed nothing. *)
Lemma replace_scan_same_length r repl :
  shortening (r, repl) ->
  forall s prev skip,
    (skip <= length s)%nat ->
    (length s <= length (replace_scan r repl prev s skip) + skip)%nat ->
    replace_scan r repl prev s skip = skipn skip s.
Proof.
  unfold shortening. simpl. intros Hshort.
  assert (Hrepl : (length repl <= min_len r)%nat) by lia.
  induction s as [|c s IH]; intros prev skip Hskip Hlen; simpl in *.
  - destruct skip; [|lia].
    destruct (regex_exec r prev []) as [n|] eqn:E; [|reflexivity].
    apply regex_exec_bound in E. simpl in E. lia.
  - destruct skip as [|skip].
    + destruct (regex_exec r prev (c :: s)) as [[|n]|] eqn:E.
      * apply regex_exec_bound in E. lia.
      * apply regex_exec_bound in E. simpl in E.
        pose proof (replace_scan_length r repl Hrepl s (Some c) n ltac:(lia)).
        rewrite length_app in Hlen. lia.
      * simpl in Hlen. change (skipn 0 (c :: s)) with (c :: skipn 0 s).
        f_equal. apply (IH (Some c) 0%nat); lia.
    + apply IH; lia.
Qed.

Lemma replace_all_same_length r repl s :
  shortening (r, repl) ->
  (length s <= length (replace_all r repl s))%nat ->
  replace_all r repl s = s.
Proof.
  intros Hshort Hlen. unfold replace_all in *.
  apply (replace_scan_same_length r repl Hshort s None 0%nat); lia.
Qed.

Lemma run_passes_length passes :
  Forall shortening passes ->
  forall s, (length (run_passes passes s) <= length s)%nat.
Proof.
  induction 1 as [|[r repl] passes Hshort _ IH]; intros s; simpl; [lia|].
  etransitivity; [apply IH|].
  apply replace_all_length. unfold shortening in Hshort. simpl in *. lia.
Qed.

(** A sequence of shortening passes that keeps the length has changed
    nothing, at any pass. *)
Lemma run_passes_same_length passes :
  Forall shortening passes ->
  forall s,
    (length s <= length (run_passes passes s))%nat ->
    Forall (fun pass => replace_all (fst pass) (snd pass) s = s) passes.
Proof.
  induction 1 as [|[r repl] passes Hshort Hall IH]; intros s Hlen;
    [constructor|].
  simpl in Hlen.
  pose proof (run_passes_length passes Hall (replace_all r repl s)) as Hle.
  assert (Heq : replace_all r repl s = s).
  { apply replace_all_same_length; [exact Hshort | lia]. }
  constructor; [exact Heq|]. apply IH. rewrite Heq in Hlen. exact Hlen.
Qed.

Lemma run_passes_fixed passes s :
  Forall (fun pass => replace_all (fst pass) (snd pass) s = s) passes ->
  run_passes passes s = s.
Proof.
  induction 1 as [|[r repl] passes Heq _ IH]; [reflexivity|].
  simpl in *. rewrite Heq. exact IH.
Qed.

(** The output of a sanitizer is the input or something shorter. *)
Lemma sanitizer_shortens passes s :
  Forall shortening passes ->
  trim (run_passes passes s) = s
  \/ (length (trim (run_passes passes s)) < length s)%nat.
Proof.
  intros Hall.
  pose proof (run_passes_length passes Hall s) as H1.
  pose proof (trim_length (run_passes passes s)) as H2.
  destruct (Nat.eq_dec (length (trim (run_passes passes s))) (length s))
    as [Heq|Hne]; [left|right; lia].
  assert (Hrun : run_passes passes s = s).
  { apply run_passes_fixed, run_passes_same_length; [assumption|lia]. }
  rewrite Hrun in *. apply trim_same_length, Heq.
Qed.

Lemma sanitizer_fixed passes s :
  Forall shortening passes ->
  trim (run_passes passes s) = s ->
  Forall (fun pass => replace_all (fst pass) (snd pass) s = s) passes.
Proof.
  intros Hall Heq. apply run_passes_same_length; [assumption|].
  rewrite <- Heq at 1. apply trim_length.
Qed.

Lemma sanitizeHtml_fixed s : sanitizeHtml_str s = s -> clean s.
Proof.
  rewrite sanitizeHtml_passes. intros H.
  apply sanitizer_fixed in H; [|apply html_passes_shortening].
  inversion_clear H as [|? ? H1 H']. inversion_clear H' as [|? ? H2 H''].
  inversion_clear H'' as [|? ? H3 _].
  repeat split; apply replace_all_fixed; try assumption; vm_compute; lia.
Qed.

Lemma sanitizeSvg_fixed s : sanitizeSvg_str s = s -> clean s.
Proof.
  rewrite sanitizeSvg_passes. intros H.
  apply sanitizer_fixed in H; [|apply svg_passes_shortening].
  inversion_clear H as [|? ? H1 H']. inversion_clear H' as [|? ? H2 H''].
  inversion_clear H'' as [|? ? H3 _].
  repeat split; apply replace_all_fixed; try assumption; vm_compute; lia.
Qed.

(** Running a sanitizer again and again reaches, within as many rounds as
    the input has code units, an output that a further round leaves
    unchanged. *)
Lemma sanitizer_reaches_fixed_point passes :
  Forall shortening passes ->
  forall s, exists n,
    (n <= length s)%nat
    /\ let t := Nat.iter n (fun x => trim (run_passes passes x)) s in
       trim (run_passes passes t) = t.
Proof.
  intros Hall s. remember (length s) as k eqn:Hk.
  assert (Hle : (length s <= k)%nat) by lia. clear Hk.
  revert s Hle. induction k as [|k IH]; intros s Hle.
  - exists 0%nat. split; [lia|]. simpl.
    destruct (sanitizer_shortens passes s Hall) as [Hfix|Hlt]; [exact Hfix|lia].
  - destruct (sanitizer_shortens passes s Hall) as [Hfix|Hlt].
    + exists 0%nat. split; [lia | exact Hfix].
    + destruct (IH (trim (run_passes passes s)) ltac:(lia)) as (n & Hn & Hfix).
      exists (S n). split; [lia|]. rewrite Nat.iter_succ_r. exact Hfix.
Qed.

End SanitizerFacts.

Section SanitizerClaims.


(** An output that a second run of the same sanitizer leaves unchanged
    holds none of the three patterns. *)
Lemma sanitize_stable_output_clean (s : jsstring) :
  (sanitizeHtml (Some (sanitizeHtml (Some s))) = sanitizeHtml (Some s) ->
   clean (sanitizeHtml (Some s)))
  /\ (sanitizeSvg (Some (sanitizeSvg (Some s))) = sanitizeSvg (Some s) ->
      clean (sanitizeSvg (Some s))).
Proof.
  split; simpl; intros H.
  - apply sanitizeHtml_fixed, H.
  - apply sanitizeSvg_fixed, H.
Qed.

(** Nested script blocks and handlers are reassembled in the same way. *)
Example sanitizeHtml_nested_script :
  sanitizeHtml (Some (lit "<scr<script></script>ipt>alert(1)</script>"))
  = lit "<script>alert(1)</script>".
Proof. vm_compute. reflexivity. Qed.

Example sanitizeHtml_nested_handler :
  sanitizeHtml (Some (lit "<a oonx=''nclick='alert(1)'>"))
  = lit "<a onclick='alert(1)'>".
Proof. vm_compute. reflexivity. Qed.

(** The sample of the repository's security test. *)
Example sanitizeHtml_test_sample :
  sanitizeHtml (Some (lit "<script>alert('XSS')</script>Normal text"))
  = lit "Normal text".
Proof. vm_compute. reflexivity. Qed.

(** C2. The claim says that an [href] whose quoted value holds a
    [javascript:] target comes out as [href=Q#Q] (Q the double quote).
    On [<a href=Qjavascript:alert(1)Q>x</a>] the [javascript:] pass runs
    first and deletes the scheme, the [href] pattern no longer matches,
    and the attribute keeps the rest of its value. *)
Theorem sanitizeSvg_href_keeps_value :
  let input := lit "<a href=" ++ quoted (lit "javascript:alert(1)") ++ lit ">x</a>" in
  occurs href_re input
  /\ sanitizeSvg (Some input)
     = lit "<a href=" ++ quoted (lit "alert(1)") ++ lit ">x</a>"
  /\ includes (sanitizeSvg (Some input)) (lit "href=" ++ quoted (lit "#")) = false.
Proof.
  split; [apply occurs_test|split]; vm_compute; reflexivity.
Qed.

(** The [href] pass is reached only by a [javascript:] that an earlier
    deletion put together. *)
Example sanitizeSvg_href_rewritten_after_reassembly :
  sanitizeSvg
    (Some (lit "<a href=" ++ quoted (lit "javaonx='1'script:alert(1)") ++ lit ">x</a>"))
  = lit "<a href=" ++ quoted (lit "#") ++ lit ">x</a>".
Proof. vm_compute. reflexivity. Qed.

(** The control-character pass is a filter. *)
Lemma replace_control_filter : forall s prev,
  replace_scan control_re [] prev s 0
  = List.filter (fun c => negb (is_control c)) s.
Proof.
  induction s as [|c s IH]; intros prev; [reflexivity|].
  simpl. unfold regex_exec. simpl.
  destruct (is_control c); simpl.
  - apply IH.
  - f_equal. apply IH.
Qed.

Lemma slice0_firstn s (n : Z) :
  (0 <= n)%Z -> slice0 s n = firstn (Z.to_nat n) s.
Proof. intros H. unfold slice0. destruct (Z.ltb_spec n 0); [lia|reflexivity]. Qed.

Lemma filter_count_occ (f : N -> bool) (c : N) : forall l,
  f c = true ->
  count_occ N.eq_dec (List.filter f l) c = count_occ N.eq_dec l c.
Proof.
  intros l Hc. induction l as [|x l IH]; [reflexivity|]. simpl.
  destruct (f x) eqn:Ex; simpl.
  - destruct (N.eq_dec x c); [f_equal|]; exact IH.
  - destruct (N.eq_dec x c) as [->|_]; [congruence | exact IH].
Qed.

(** The class of the control pattern, code by code. *)
Lemma is_control_codes (c : N) :
  is_control c = true
  <-> (c <= 8 \/ c = 11 \/ c = 12 \/ 14 <= c <= 31 \/ c = 127)%N.
Proof.
  unfold is_control, between.
  rewrite !orb_true_iff, !andb_true_iff, !N.leb_le, !N.eqb_eq. lia.
Qed.

(** C8. [sanitizeText(s, B)] first deletes the code units 0 to 8, 11, 12,
    14 to 31 and 127, and no others: every tab (9), line feed (10) and
    carriage return (13) of [s] is still there after this step. It then
    keeps the first [B] code units of what is left and hands them to
    [sanitizeHtml]. The result is no longer than [min(L, B)], [L] the
    length of [s]; it holds none of the deleted codes, so the only control
    characters it can hold are 9, 10 and 13; for an input that is not a
    string the result is the empty string. *)
Theorem sanitizeText_bounded (s : jsstring) (B : Z) :
  (0 <= B)%Z ->
  let stripped :=
    List.filter
      (fun c => negb ((c <=? 8) || (c =? 11) || (c =? 12)
                      || ((14 <=? c) && (c <=? 31)) || (c =? 127))%N) s in
  replace_all control_re [] s = stripped
  /\ (forall c, In c stripped <->
                In c s
                /\ ~ (c <= 8 \/ c = 11 \/ c = 12 \/ 14 <= c <= 31 \/ c = 127)%N)
  /\ (forall c, (c = 9 \/ c = 10 \/ c = 13)%N ->
                count_occ N.eq_dec stripped c = count_occ N.eq_dec s c)
  /\ sanitizeText (Some s) B
     = sanitizeHtml (Some (firstn (Z.to_nat B) stripped))
  /\ (Z.of_nat (length (sanitizeText (Some s) B))
      <= Z.min (Z.of_nat (length s)) B)%Z
  /\ Forall (fun c => ~ (c <= 8 \/ c = 11 \/ c = 12 \/ 14 <= c <= 31
                         \/ c = 127)%N)
       (sanitizeText (Some s) B)
  /\ Forall (fun c => (c < 32 \/ c = 127)%N -> (c = 9 \/ c = 10 \/ c = 13)%N)
       (sanitizeText (Some s) B)
  /\ sanitizeText None B = [].
Proof.
  intros HB stripped.
  assert (Hclass : forall c,
            ((c <=? 8) || (c =? 11) || (c =? 12)
             || ((14 <=? c) && (c <=? 31)) || (c =? 127))%N
            = is_control c).
  { intros c. unfold is_control, between.
    replace (0 <=? c)%N with true by (symmetry; apply N.leb_le; lia).
    reflexivity. }
  assert (Hstripped : stripped = List.filter (fun c => negb (is_control c)) s).
  { unfold stripped. apply List.filter_ext. intros c. rewrite Hclass.
    reflexivity. }
  clearbody stripped. subst stripped.
  assert (Hdel : replace_all control_re [] s
                 = List.filter (fun c => negb (is_control c)) s)
    by apply replace_control_filter.
  assert (Heq : sanitizeText (Some s) B
                = sanitizeHtml
                    (Some (firstn (Z.to_nat B)
                             (List.filter (fun c => negb (is_control c)) s)))).
  { unfold sanitizeText. rewrite Hdel, slice0_firstn by assumption.
    reflexivity. }
  set (cleaned := List.filter (fun c => negb (is_control c)) s) in *.
  assert (Hin : forall c, In c (sanitizeText (Some s) B) ->
                  ~ (c <= 8 \/ c = 11 \/ c = 12 \/ 14 <= c <= 31 \/ c = 127)%N).
  { intros c Hc. rewrite Heq in Hc. cbn [sanitizeHtml] in Hc.
    pose proof (sanitizeHtml_sublist (firstn (Z.to_nat B) cleaned)) as Hsub.
    apply list_elem_of_In in Hc.
    apply (elem_of_sublist _ _ _ Hc) in Hsub.
    pose proof (elem_of_sublist _ _ _ Hsub (sublist_take cleaned (Z.to_nat B)))
      as Hc'.
    apply (proj1 (list_elem_of_In _ _)), List.filter_In in Hc'.
    destruct Hc' as [_ Hneg]. apply negb_true_iff in Hneg.
    rewrite <- is_control_codes. congruence. }
  split; [exact Hdel|]. split; [|split; [|split; [exact Heq|split; [|split; [|split]]]]].
  - intros c. unfold cleaned. rewrite List.filter_In, negb_true_iff.
    rewrite <- is_control_codes.
    destruct (is_control c); split; intros [H1 H2]; split; auto; congruence.
  - intros c Hc. apply filter_count_occ.
    apply negb_true_iff. destruct (is_control c) eqn:E; [|reflexivity].
    apply is_control_codes in E. lia.
  - rewrite Heq. cbn [sanitizeHtml].
    pose proof (sanitizeHtml_sublist (firstn (Z.to_nat B) cleaned)) as Hsub.
    apply sublist_length in Hsub. rewrite length_firstn in Hsub.
    pose proof (filter_length_le (fun c => negb (is_control c)) s).
    fold cleaned in H. lia.
  - apply List.Forall_forall. exact Hin.
  - apply List.Forall_forall. intros c Hc Hlow.
    apply Hin in Hc. lia.
  - reflexivity.
Qed.

Lemma sanitizeText_bounded_witness :
  let s := lit "a" ++ [0; 8; 9; 10; 11; 12; 13; 14; 31; 127]%N ++ lit "b<i>"
           ++ [27%N] ++ lit "cdefgh" in
  sanitizeText (Some s) 9 = lit "a" ++ [9; 10; 13]%N ++ lit "b<i>c"
  /\ (Z.of_nat (length (sanitizeText (Some s) 9))
      <= Z.min (Z.of_nat (length s)) 9)%Z.
Proof.
  intros s.
  destruct (sanitizeText_bounded s 9 ltac:(lia))
    as (_ & _ & _ & Hpipe & Hlen & _).
  split; [|exact Hlen].
  rewrite Hpipe. vm_compute. reflexivity.
Defined.

Example sanitizeText_truncates :
  length (sanitizeText (Some (repeat 65%N 2000)) 500) = 500%nat.
Proof. vm_compute. reflexivity. Qed.

End SanitizerClaims.

(* ================================================================= *)
(** * Patterns made of literals *)

Section LiteralPatterns.

Lemma advance_nil st n : m_rest st = [] -> advance st n = st.
Proof. intros H. destruct n; simpl; [reflexivity|]. rewrite H. reflexivity. Qed.

Lemma advance_rest : forall n st, m_rest (advance st n) = drop n (m_rest st).
Proof.
  induction n as [|n IH]; intros st; simpl; [reflexivity|].
  destruct (m_rest st) as [|c tl] eqn:E; simpl.
  - exact E.
  - rewrite IH. reflexivity.
Qed.

Lemma advance_add : forall a st b,
  advance (advance st a) b = advance st (a + b).
Proof.
  induction a as [|a IH]; intros st b; simpl; [reflexivity|].
  destruct (m_rest st) as [|c tl] eqn:E.
  - apply advance_nil, E.
  - apply IH.
Qed.

Lemma prefix_ci_app : forall w1 w2 s,
  prefix_ci (w1 ++ w2) s = prefix_ci w1 s && prefix_ci w2 (drop (length w1) s).
Proof.
  induction w1 as [|a w1 IH]; intros w2 s; simpl; [reflexivity|].
  destruct s as [|b s]; simpl; [reflexivity|].
  rewrite IH, andb_assoc. reflexivity.
Qed.

(** The matcher succeeds on such a pattern exactly when one of its
    words begins the input and the continuation accepts what follows. *)
Lemma denotes_correct r ws :
  denotes r ws ->
  forall st k,
    is_Some (rmatch r st k)
    <-> exists w, In w ws /\ prefix_ci w (m_rest st) = true
                  /\ is_Some (k (advance st (length w))).
Proof.
  induction 1 as [|p c Hp|r1 r2 ws1 ws2 _ IH1 _ IH2|r1 r2 ws1 ws2 _ IH1 _ IH2];
    intros st k.
  - simpl. split.
    + intros H. exists []. simpl. auto.
    + intros (w & [<-|[]] & _ & H). exact H.
  - simpl. split.
    + destruct st as [pv [|x tl] e]; simpl; [intros [? [=]]|].
      rewrite Hp. unfold ci at 1.
      destruct (canonicalize x =? canonicalize c)%N eqn:E; [|intros [? [=]]].
      intros H. exists [c]. simpl. rewrite E. auto.
    + intros (w & [<-|[]] & Hpre & H).
      destruct st as [pv [|x tl] e]; simpl in *; [discriminate|].
      rewrite Hp. unfold ci at 1.
      destruct (canonicalize x =? canonicalize c)%N; [exact H|discriminate].
  - simpl. rewrite IH1. split.
    + intros (w1 & Hin1 & Hpre1 & H). apply IH2 in H as (w2 & Hin2 & Hpre2 & H).
      exists (w1 ++ w2)%list. split; [|split].
      * apply in_flat_map. exists w1. split; [assumption|].
        apply in_map_iff. exists w2. auto.
      * rewrite prefix_ci_app, Hpre1. rewrite advance_rest in Hpre2. exact Hpre2.
      * rewrite length_app, <- advance_add. exact H.
    + intros (w & Hin & Hpre & H).
      apply in_flat_map in Hin as (w1 & Hin1 & Hin).
      apply in_map_iff in Hin as (w2 & <- & Hin2).
      rewrite prefix_ci_app in Hpre. apply andb_true_iff in Hpre as [Hpre1 Hpre2].
      exists w1. split; [assumption|]. split; [assumption|].
      apply IH2. exists w2. split; [assumption|].
      rewrite advance_rest, advance_add, <- length_app. auto.
  - simpl. split.
    + destruct (rmatch r1 st k) as [n|] eqn:E.
      * intros _. apply mk_is_Some, IH1 in E as (w & Hin & H).
        exists w. split; [apply in_app_iff; auto | exact H].
      * intros H. apply IH2 in H as (w & Hin & H).
        exists w. split; [apply in_app_iff; auto | exact H].
    + intros (w & Hin & H). apply in_app_iff in Hin as [Hin|Hin].
      * assert (Hs : is_Some (rmatch r1 st k)) by (apply IH1; eauto).
        destruct Hs as [n ->]. eauto.
      * destruct (rmatch r1 st k); [eauto|]. apply IH2. eauto.
Qed.

Lemma regex_exec_denotes r ws prev s :
  denotes r ws ->
  is_Some (regex_exec r prev s) <-> exists w, In w ws /\ prefix_ci w s = true.
Proof.
  intros Hd. unfold regex_exec. rewrite (denotes_correct _ _ Hd). simpl.
  split; intros (w & Hin & Hpre); exists w; [tauto | eauto].
Qed.

Lemma denotes_ilit_of : forall cs, denotes (ilit_of cs) [cs].
Proof.
  induction cs as [|c cs IH]; [constructor|].
  destruct cs as [|c' cs].
  - apply denotes_Char. reflexivity.
  - change (ilit_of (c :: c' :: cs)) with (Seq (Char (ci c)) (ilit_of (c' :: cs))).
    apply (denotes_Seq _ _ [[c]] [c' :: cs]); [|exact IH].
    apply denotes_Char. reflexivity.
Qed.

Lemma denotes_ilit s : denotes (ilit s) [lit s].
Proof. apply denotes_ilit_of. Qed.

(** A character that is not a letter is matched alike with and without
    the [i] flag. *)
Lemma is_char_ci c x :
  between 97 122 c = false -> between 65 90 c = false ->
  is_char c x = ci c x.
Proof.
  unfold is_char, ci, canonicalize, between. intros H1 H2.
  rewrite H1.
  destruct ((97 <=? x)%N && (x <=? 122)%N) eqn:E.
  - apply andb_true_iff in E as [E1 E2].
    apply N.leb_le in E1, E2.
    apply andb_false_iff in H2.
    destruct (N.eqb_spec x c) as [Hxc|Hne];
      destruct (N.eqb_spec (x - 32) c) as [Heq|Hne'];
      try reflexivity; exfalso.
    + apply andb_false_iff in H1.
      destruct H1 as [H1|H1]; apply N.leb_gt in H1; lia.
    + destruct H2 as [H2|H2]; apply N.leb_gt in H2; lia.
  - reflexivity.
Qed.

(** A pattern anchored with [^] matches at the start of the input or
    nowhere. *)
Lemma regex_search_anchored r :
  (forall c s, regex_exec r (Some c) s = None) ->
  forall s c, regex_search r (Some c) s = false.
Proof.
  intros H. induction s as [|x s IH]; intros c; simpl; rewrite H; auto.
Qed.

Lemma regex_test_anchored r s :
  (forall c s, regex_exec r (Some c) s = None) ->
  regex_test r s = true <-> is_Some (regex_exec r None s).
Proof.
  intros H. unfold regex_test.
  destruct s as [|x s]; simpl.
  - destruct (regex_exec r None []); split; eauto; try discriminate.
    intros [? [=]].
  - rewrite (regex_search_anchored r H).
    destruct (regex_exec r None (x :: s)); split; eauto; try discriminate.
    intros [? [=]].
Qed.

End LiteralPatterns.

Section UrlClaim.
Local Open Scope string_scope.

Lemma blocked_body_denotes :
  denotes (Seq (Alt (Alt (ilit "javascript") (ilit "data")) (ilit "vbscript"))
             (Char (is_char 58)))
    (map lit blocked_schemes).
Proof.
  apply (denotes_Seq _ _ [lit "javascript"; lit "data"; lit "vbscript"] [[58%N]]).
  - apply (denotes_Alt _ _ [_; _] [_]); [apply (denotes_Alt _ _ [_] [_])|];
      apply denotes_ilit.
  - apply denotes_Char. intros x. apply is_char_ci; reflexivity.
Qed.

Lemma allowed_body_denotes :
  denotes
    (Alt (Alt (Alt (Alt (Seq (Seq (ilit "http") (Opt (ilit "s"))) (ilit "://"))
                      (ilit "mailto:")) (ilit "/")) (ilit "./")) (ilit "../"))
    (map lit ["https://"; "http://"; "mailto:"; "/"; "./"; "../"]).
Proof.
  apply (denotes_Alt _ _ [_; _; _; _; _] [_]); [|apply denotes_ilit].
  apply (denotes_Alt _ _ [_; _; _; _] [_]); [|apply denotes_ilit].
  apply (denotes_Alt _ _ [_; _; _] [_]); [|apply denotes_ilit].
  apply (denotes_Alt _ _ [_; _] [_]); [|apply denotes_ilit].
  apply (denotes_Seq _ _ [lit "https"; lit "http"] [lit "://"]);
    [|apply denotes_ilit].
  apply (denotes_Seq _ _ [lit "http"] [lit "s"; []]); [apply denotes_ilit|].
  apply (denotes_Alt _ _ [_] [_]); [apply denotes_ilit | constructor].
Qed.

Lemma blocked_test t :
  regex_test blocked_scheme_re t = begins_with_any blocked_schemes t.
Proof.
  apply eq_iff_eq_true.
  rewrite regex_test_anchored by reflexivity.
  change (regex_exec blocked_scheme_re None t)
    with (regex_exec
            (Seq (Alt (Alt (ilit "javascript") (ilit "data")) (ilit "vbscript"))
               (Char (is_char 58))) None t).
  rewrite (regex_exec_denotes _ _ _ _ blocked_body_denotes).
  unfold begins_with_any. rewrite existsb_exists. split.
  - intros (w & Hin & Hpre). apply in_map_iff in Hin as (p & <- & Hin). eauto.
  - intros (p & Hin & Hpre). exists (lit p). split; [apply in_map, Hin | exact Hpre].
Qed.

Lemma allowed_test t :
  regex_test allowed_url_re t = begins_with_any allowed_prefixes t.
Proof.
  apply eq_iff_eq_true.
  rewrite regex_test_anchored by reflexivity.
  change (regex_exec allowed_url_re None t)
    with (regex_exec
            (Alt (Alt (Alt (Alt (Seq (Seq (ilit "http") (Opt (ilit "s"))) (ilit "://"))
                              (ilit "mailto:")) (ilit "/")) (ilit "./")) (ilit "../"))
            None t).
  rewrite (regex_exec_denotes _ _ _ _ allowed_body_denotes).
  unfold begins_with_any. rewrite existsb_exists. split.
  - intros (w & Hin & Hpre). apply in_map_iff in Hin as (p & <- & Hin).
    exists p. split; [|exact Hpre]. simpl in *. tauto.
  - intros (p & Hin & Hpre). exists (lit p). split; [|exact Hpre].
    apply in_map. simpl in *. tauto.
Qed.

Lemma sanitizeUrl_is_any_case url : sanitizeUrl url = sanitizeUrl_any_case url.
Proof.
  destruct url as [s|]; [|reflexivity].
  unfold sanitizeUrl, sanitizeUrl_any_case.
  rewrite blocked_test, allowed_test. reflexivity.
Qed.

(** No string begins with both a blocked scheme and an allowed prefix. *)
Lemma allowed_not_blocked t :
  begins_with_any allowed_prefixes t = true ->
  begins_with_any blocked_schemes t = false.
Proof.
  destruct t as [|b t]; [intros [=]|].
  unfold begins_with_any, allowed_prefixes, blocked_schemes, existsb.
  cbn [lit list_ascii_of_string map prefix_ci].
  change (N_of_ascii "h") with 104%N. change (N_of_ascii "m") with 109%N.
  change (N_of_ascii "/") with 47%N. change (N_of_ascii ".") with 46%N.
  change (N_of_ascii "j") with 106%N. change (N_of_ascii "d") with 100%N.
  change (N_of_ascii "v") with 118%N.
  change (canonicalize 104) with 72%N. change (canonicalize 109) with 77%N.
  change (canonicalize 47) with 47%N. change (canonicalize 46) with 46%N.
  change (canonicalize 106) with 74%N. change (canonicalize 100) with 68%N.
  change (canonicalize 118) with 86%N.
  destruct (N.eqb_spec (canonicalize b) 74) as [->|_]; [intros [=]|].
  destruct (N.eqb_spec (canonicalize b) 68) as [->|_]; [intros [=]|].
  destruct (N.eqb_spec (canonicalize b) 86) as [->|_]; [intros [=]|].
  reflexivity.
Qed.

(** A prefix found letter for letter is found without regard to case. *)
Lemma starts_with_prefix_ci : forall p s,
  starts_with p s = true -> prefix_ci p s = true.
Proof.
  induction p as [|a p IH]; intros [|b s]; simpl; try (reflexivity || discriminate).
  intros H. apply andb_true_iff in H as [Hab H]. apply N.eqb_eq in Hab. subst b.
  rewrite N.eqb_refl. apply IH, H.
Qed.

Lemma begins_with_exactly_any prefixes s :
  begins_with_exactly prefixes s = true -> begins_with_any prefixes s = true.
Proof.
  unfold begins_with_exactly, begins_with_any. rewrite !existsb_exists.
  intros (p & Hin & H). exists p. split; [exact Hin|].
  apply starts_with_prefix_ci, H.
Qed.

(** C7 (as stated, refuted). The claim gives the empty string to every
    value that begins with none of [http://], [https://], [mailto:], [/],
    [./] and [../], and leaves the case of letters free in the blocked
    schemes only. [HTTP://EXAMPLE.COM] begins with no blocked scheme and
    with none of the six prefixes as they are written, so the stated
    contract gives the empty string; the allow pattern carries the [i]
    flag, and [sanitizeUrl] returns the value unchanged. *)
Lemma sanitizeUrl_upper_case_prefix_kept :
  let url := lit "HTTP://EXAMPLE.COM" in
  begins_with_any blocked_schemes (trim url) = false
  /\ begins_with_exactly allowed_prefixes (trim url) = false
  /\ sanitizeUrl_stated (Some url) = []
  /\ sanitizeUrl (Some url) = url
  /\ sanitizeUrl (Some url) <> sanitizeUrl_stated (Some url).
Proof. vm_compute. repeat split; discriminate. Qed.

(** C7 (amended). [sanitizeUrl] trims its input; a value that begins with
    [javascript:], [data:] or [vbscript:] in any letter case gives the
    empty string; a value that begins with [http://], [https://],
    [mailto:], [/], [./] or [../], as they are written or with their
    letters in any other case, comes back trimmed and otherwise unchanged;
    a value that begins with none of these in any letter case, and every
    input that is not a string, gives the empty string. So the source
    agrees with the stated contract on every value except those that
    begin with an allowed prefix spelled with other letter cases. *)
Theorem sanitizeUrl_allow_list (s : jsstring) :
  sanitizeUrl None = []
  /\ sanitizeUrl (Some s) = sanitizeUrl_any_case (Some s)
  /\ (begins_with_any blocked_schemes (trim s) = true ->
      sanitizeUrl (Some s) = [])
  /\ (begins_with_exactly allowed_prefixes (trim s) = true ->
      sanitizeUrl (Some s) = trim s)
  /\ (begins_with_any allowed_prefixes (trim s) = true ->
      sanitizeUrl (Some s) = trim s)
  /\ (begins_with_any blocked_schemes (trim s) = false ->
      begins_with_any allowed_prefixes (trim s) = false ->
      sanitizeUrl (Some s) = [])
  /\ (begins_with_exactly allowed_prefixes (trim s)
      = begins_with_any allowed_prefixes (trim s) ->
      sanitizeUrl (Some s) = sanitizeUrl_stated (Some s))
  /\ map (fun u => sanitizeUrl (Some (lit u)))
       ["https://example.com"; "/a/b"; "./a"; "../a"; "mailto:x@y.com"]
     = map lit ["https://example.com"; "/a/b"; "./a"; "../a"; "mailto:x@y.com"].
Proof.
  split; [reflexivity|]. split; [apply sanitizeUrl_is_any_case|].
  rewrite sanitizeUrl_is_any_case.
  unfold sanitizeUrl_any_case, sanitizeUrl_stated.
  repeat split.
  - intros ->. reflexivity.
  - intros H. apply begins_with_exactly_any in H.
    rewrite (allowed_not_blocked _ H), H. reflexivity.
  - intros H. rewrite (allowed_not_blocked _ H), H. reflexivity.
  - intros -> ->. reflexivity.
  - intros ->. reflexivity.
Qed.

Lemma sanitizeUrl_allow_list_witness :
  sanitizeUrl (Some (lit "  JavaScript:alert(1) ")) = []
  /\ sanitizeUrl (Some (lit " https://example.com/x ")) = lit "https://example.com/x"
  /\ sanitizeUrl (Some (lit " Https://Example.com/x ")) = lit "Https://Example.com/x"
  /\ sanitizeUrl (Some (lit "ftp://example.com")) = []
  /\ sanitizeUrl (Some (lit "./a b"))
     = sanitizeUrl_stated (Some (lit "./a b")).
Proof.
  split; [|split; [|split; [|split]]].
  - destruct (sanitizeUrl_allow_list (lit "  JavaScript:alert(1) "))
      as (_ & _ & Hblocked & _).
    apply Hblocked. reflexivity.
  - destruct (sanitizeUrl_allow_list (lit " https://example.com/x "))
      as (_ & _ & _ & Hexact & _).
    apply Hexact. reflexivity.
  - destruct (sanitizeUrl_allow_list (lit " Https://Example.com/x "))
      as (_ & _ & _ & _ & Hallowed & _).
    apply Hallowed. reflexivity.
  - destruct (sanitizeUrl_allow_list (lit "ftp://example.com"))
      as (_ & _ & _ & _ & _ & Hother & _).
    apply Hother; reflexivity.
  - destruct (sanitizeUrl_allow_list (lit "./a b"))
      as (_ & _ & _ & _ & _ & _ & Hsame & _).
    apply Hsame. reflexivity.
Defined.

(** The URLs of the repository's security test. *)
Example sanitizeUrl_test_sample :
  map (fun u => sanitizeUrl (Some (lit u)))
    ["javascript:alert('XSS')"; "data:text/html,<script>alert('XSS')</script>";
     "vbscript:msgbox('XSS')"; "JAVASCRIPT:alert(1)"; "  DaTa:x"]
  = [[]; []; []; []; []].
Proof. vm_compute. reflexivity. Qed.

End UrlClaim.

(* ================================================================= *)
(** * Drawing documents *)

Section DrawingFacts.
Local Open Scope string_scope.

Lemma zparse_array_length item : forall l v,
  zparse (ZArray item) (JArr l) = Some v ->
  exists l', v = JArr l' /\ length l' = length l.
Proof.
  intros l v. simpl.
  match goal with |- option_map _ (?f l) = _ -> _ => set (each := f) end.
  destruct (each l) as [l'|] eqn:E; simpl; [|discriminate].
  intros [= <-]. exists l'. split; [reflexivity|].
  revert l' E. induction l as [|x l IH]; intros l'; simpl.
  - intros [= <-]. reflexivity.
  - destruct (zparse item x); [|discriminate].
    destruct (each l) as [ys|]; [|discriminate].
    intros [= <-]. simpl. f_equal. apply IH. reflexivity.
Qed.

Lemma parse_array_shape item v v' :
  parse (ZArray item) v = Normal v' ->
  exists l l', v = JArr l /\ v' = JArr l' /\ length l' = length l.
Proof.
  unfold parse. destruct (zparse (ZArray item) v) as [y|] eqn:E; [|discriminate].
  intros [= <-]. destruct v; try discriminate.
  apply zparse_array_length in E as (l' & -> & Hlen). eauto.
Qed.

Lemma zparse_array_repeat item x y : forall n,
  zparse item x = Some y ->
  zparse (ZArray item) (JArr (repeat x n)) = Some (JArr (repeat y n)).
Proof.
  intros n Hx. simpl.
  match goal with |- option_map _ (?f _) = _ => set (each := f) end.
  replace (each (repeat x n)) with (Some (repeat y n)); [reflexivity|].
  induction n as [|n IH]; simpl; [reflexivity|].
  rewrite Hx, <- IH. reflexivity.
Qed.

(** Sanitization keeps the number of elements. *)
Lemma sanitizeDrawingData_elements fields sd :
  sanitizeDrawingData (JObj fields) = Normal sd ->
  array_length (elements sd) = array_length (field (lit "elements") fields).
Proof.
  unfold sanitizeDrawingData. cbn [get mbind completion_bind].
  destruct (parse (ZArray elementSchema) (field (lit "elements") fields))
    as [es|] eqn:E; cbn [try_catch]; [|discriminate].
  destruct (parse appStateSchema (field (lit "appState") fields));
    cbn [try_catch]; [|discriminate].
  intros [= <-]. cbn [elements].
  apply parse_array_shape in E as (l & l' & -> & -> & Hlen). exact Hlen.
Qed.

(** The app state of an accepted document is an object with own
    properties: [null] and arrays pass the [typeof] test of
    [validateImportedDrawing] and fail the schema. *)
Lemma sanitization_needs_appState fields :
  is_plain_object (field (lit "appState") fields) = false ->
  sanitization_succeeds (JObj fields) = false.
Proof.
  unfold sanitization_succeeds, sanitizeDrawingData.
  cbn [get mbind completion_bind]. intros H.
  destruct (parse (ZArray elementSchema) (field (lit "elements") fields));
    cbn [try_catch]; [|reflexivity].
  destruct (field (lit "appState") fields); try discriminate; reflexivity.
Qed.

Lemma validateImportedDrawing_checks data :
  validateImportedDrawing data = Normal (document_checks data).
Proof.
  unfold validateImportedDrawing, document_checks.
  destruct data as [| |b|n|x|l|fields]; try reflexivity.
  - destruct b; reflexivity.
  - destruct n as [q| | |]; try reflexivity.
    cbn [truthy negb orb is_object_type typeof]. destruct (Qeq_bool q 0); reflexivity.
  - destruct x; reflexivity.
  - cbn [truthy negb orb is_object_type typeof get mbind completion_bind].
    destruct (isArray (field (lit "elements") fields)); [|reflexivity].
    destruct (is_object_type (field (lit "appState") fields)); [|reflexivity].
    cbn [negb andb].
    destruct (Z.ltb_spec 10000 (Z.of_nat (array_length (field (lit "elements") fields))))
      as [Hgt|Hle].
    + destruct (Z.leb_spec (Z.of_nat (array_length (field (lit "elements") fields))) 10000);
        [lia|reflexivity].
    + destruct (Z.leb_spec (Z.of_nat (array_length (field (lit "elements") fields))) 10000);
        [|lia].
      unfold sanitization_succeeds.
      destruct (sanitizeDrawingData (JObj fields)) as [sd|e] eqn:E;
        cbn [mbind completion_bind try_catch andb]; [|reflexivity].
      rewrite (sanitizeDrawingData_elements _ _ E), Nat.eqb_refl. reflexivity.
Qed.

(** Any number of minimal elements up to 10000, with an empty app state,
    is accepted. *)
Lemma validateImportedDrawing_minimal n :
  (Z.of_nat n <= 10000)%Z ->
  validateImportedDrawing (document (repeat minimal_element n) (obj []))
  = Normal true.
Proof.
  intros Hn. rewrite validateImportedDrawing_checks.
  unfold document, obj, document_checks. cbn [map fst snd].
  assert (Hel : forall l a,
             field (lit "elements") [(lit "elements", JArr l); (lit "appState", a)]
             = JArr l) by reflexivity.
  assert (Hap : forall l a,
             field (lit "appState") [(lit "elements", JArr l); (lit "appState", a)]
             = a) by reflexivity.
  rewrite Hel, Hap. cbn [isArray is_object_type typeof array_length andb].
  rewrite repeat_length.
  destruct (Z.leb_spec (Z.of_nat n) 10000); [|lia]. cbn [andb].
  unfold sanitization_succeeds, sanitizeDrawingData.
  cbn [get mbind completion_bind]. rewrite Hel, Hap. unfold parse.
  destruct (zparse elementSchema minimal_element) as [y|] eqn:E;
    [|vm_compute in E; discriminate].
  rewrite (zparse_array_repeat _ _ _ n E).
  reflexivity.
Qed.

End DrawingFacts.

Section DrawingClaims.
Local Open Scope string_scope.

(** C5. [validateImportedDrawing] always returns a boolean, whatever it
    is given, and throws nothing: [false] when the document is not an
    object, when [elements] is not an array, when [appState] is not an
    object, when there are more than 10000 elements (so for 10001 minimal
    valid elements), when sanitization throws; [true] exactly when every
    check passes. *)
Theorem validateImportedDrawing_never_throws (data : jsval) :
  (exists b, validateImportedDrawing data = Normal b)
  /\ validateImportedDrawing data = Normal (document_checks data)
  /\ (is_plain_object data = false ->
      validateImportedDrawing data = Normal false)
  /\ (forall fields, data = JObj fields ->
      isArray (field (lit "elements") fields) = false ->
      validateImportedDrawing data = Normal false)
  /\ (forall fields, data = JObj fields ->
      is_plain_object (field (lit "appState") fields) = false ->
      validateImportedDrawing data = Normal false)
  /\ (forall fields, data = JObj fields ->
      (10000 < Z.of_nat (array_length (field (lit "elements") fields)))%Z ->
      validateImportedDrawing data = Normal false)
  /\ (forall e, sanitizeDrawingData data = Throw e ->
      validateImportedDrawing data = Normal false)
  /\ (validateImportedDrawing data = Normal true ->
      exists fields l sd,
        data = JObj fields
        /\ field (lit "elements") fields = JArr l
        /\ is_plain_object (field (lit "appState") fields) = true
        /\ (Z.of_nat (length l) <= 10000)%Z
        /\ sanitizeDrawingData data = Normal sd)
  /\ validateImportedDrawing (document (repeat minimal_element (Z.to_nat 10001)) (obj []))
     = Normal false
  /\ validateImportedDrawing (document (repeat minimal_element (Z.to_nat 10000)) (obj []))
     = Normal true.
Proof.
  rewrite validateImportedDrawing_checks.
  split; [eauto|]. split; [reflexivity|].
  split; [destruct data; try discriminate; reflexivity|].
  split; [intros fields -> H; simpl; rewrite H; reflexivity|].
  split.
  { intros fields -> H. simpl.
    rewrite (sanitization_needs_appState _ H), !andb_false_r. reflexivity. }
  split.
  { intros fields -> H. simpl.
    destruct (Z.leb_spec (Z.of_nat (array_length (field (lit "elements") fields))) 10000);
      [lia|]. rewrite andb_false_r. reflexivity. }
  split.
  { intros e H. destruct data; try reflexivity. simpl.
    unfold sanitization_succeeds. rewrite H, !andb_false_r. reflexivity. }
  split.
  { intros [= H]. destruct data as [| | | | | |fields]; try discriminate.
    simpl in H. apply andb_true_iff in H as [H Hsan].
    apply andb_true_iff in H as [H Hlen].
    apply andb_true_iff in H as [Harr Happ].
    destruct (field (lit "elements") fields) as [| | | | |l|] eqn:El;
      try discriminate.
    unfold sanitization_succeeds in Hsan.
    destruct (sanitizeDrawingData (JObj fields)) as [sd|] eqn:Es;
      [|discriminate].
    exists fields, l, sd.
    split; [reflexivity|]. split; [exact El|].
    split; [|split; [apply Z.leb_le in Hlen; exact Hlen | reflexivity]].
    destruct (is_plain_object (field (lit "appState") fields)) eqn:Ep;
      [reflexivity|].
    pose proof (sanitization_needs_appState _ Ep) as Hno.
    unfold sanitization_succeeds in Hno. rewrite Es in Hno. discriminate. }
  split; [vm_compute; reflexivity|].
  apply validateImportedDrawing_minimal. lia.
Qed.

Lemma validateImportedDrawing_never_throws_witness :
  validateImportedDrawing (JStr (lit "drawing")) = Normal false
  /\ validateImportedDrawing (obj [ ("elements", str "none"); ("appState", obj []) ])
     = Normal false
  /\ validateImportedDrawing (obj [ ("elements", JArr []); ("appState", JNull) ])
     = Normal false
  /\ validateImportedDrawing
       (document [] (obj [ ("unknown", str "<script>alert(1)</script>") ]))
     = Normal false.
Proof.
  split; [|split; [|split]].
  - destruct (validateImportedDrawing_never_throws (JStr (lit "drawing")))
      as (_ & _ & H & _).
    apply H. reflexivity.
  - destruct (validateImportedDrawing_never_throws
                (obj [ ("elements", str "none"); ("appState", obj []) ]))
      as (_ & _ & _ & H & _).
    eapply H; reflexivity.
  - destruct (validateImportedDrawing_never_throws
                (obj [ ("elements", JArr []); ("appState", JNull) ]))
      as (_ & _ & _ & _ & H & _).
    eapply H; reflexivity.
  - destruct (validateImportedDrawing_never_throws
                (document [] (obj [ ("unknown", str "<script>alert(1)</script>") ])))
      as (_ & _ & _ & _ & _ & _ & H & _).
    eapply H. vm_compute. reflexivity.
Defined.

Example minimal_element_valid :
  zparse elementSchema minimal_element <> None.
Proof. vm_compute. discriminate. Qed.

(** The catchall of the app state looks at the value of the unknown
    field itself: a string passes when [sanitizeText] leaves something
    of it, any other value passes. *)
Lemma appState_catchall_check (v : jsval) :
  zparse (ZRefine ZAny appState_extra_check) v
  = match v with
    | JStr s =>
        match sanitizeText (Some s) 1000 with
        | [] => None
        | _ :: _ => Some v
        end
    | _ => Some v
    end.
Proof.
  destruct v; try reflexivity.
  cbn [zparse appState_extra_check truthy].
  destruct (sanitizeText (Some s) 1000); reflexivity.
Qed.

(** An unknown field whose string [sanitizeText] empties makes
    [sanitizeDrawingData] throw, whatever else the document holds. *)
Lemma appState_unknown_string_rejected fields app key s :
  field (lit "appState") fields = JObj app ->
  In (key, JStr s) app ->
  shape_has (shape_of appStateSchema) key = false ->
  sanitizeText (Some s) 1000 = [] ->
  sanitizeDrawingData (JObj fields)
  = Throw (Error "Invalid or malicious drawing data detected").
Proof.
  intros Happ Hin Hkey Hs.
  unfold sanitizeDrawingData. cbn [get mbind completion_bind].
  destruct (parse (ZArray elementSchema) (field (lit "elements") fields));
    cbn [try_catch]; [|reflexivity].
  rewrite Happ. unfold parse.
  replace (zparse appStateSchema (JObj app)) with (@None jsval); [reflexivity|].
  symmetry. unfold appStateSchema, with_catchall, strict, object.
  cbn [zparse].
  match goal with
  | |- match ?d with _ => _ end = None => destruct d; [|reflexivity]
  end.
  match goal with
  | |- option_map _ (?f ?l) = None =>
      assert (Hex : In (key, JStr s) l);
      [|set (each := f); set (extra := l) in *]
  end.
  { apply List.filter_In. split; [exact Hin|].
    cbn [fst]. change (negb (shape_has (shape_of appStateSchema) key) = true).
    rewrite Hkey. reflexivity. }
  clearbody extra. induction extra as [|[k x] extra IH]; [destruct Hex|].
  destruct Hex as [[= -> ->]|Hex].
  - cbn -[sanitizeText]. rewrite Hs. reflexivity.
  - specialize (IH Hex). cbn -[sanitizeText] in *.
    destruct (each extra); [discriminate|].
    destruct (truthy (appState_extra_check x)); reflexivity.
Qed.

(** C6. The claim says the check on undeclared app-state fields is
    applied recursively, which is also what the comment in the callback
    says. It is applied to the value of the field only: a string that
    [sanitizeText] empties is refused as the value of the unknown field
    [custom], and accepted one level down, inside an object. *)
Theorem appState_nested_string_unchecked :
  let bad := str "<script>alert(1)</script>" in
  sanitizeText (Some (lit "<script>alert(1)</script>")) 1000 = []
  /\ sanitizeDrawingData (document [] (obj [ ("custom", bad) ]))
     = Throw (Error "Invalid or malicious drawing data detected")
  /\ validateImportedDrawing (document [] (obj [ ("custom", bad) ]))
     = Normal false
  /\ sanitizeDrawingData (document [] (obj [ ("custom", obj [ ("note", bad) ]) ]))
     = Normal {| elements := JArr [];
                 appState := obj [ ("custom", obj [ ("note", bad) ]) ];
                 files := JUndefined;
                 preview := JUndefined |}
  /\ validateImportedDrawing
       (document [] (obj [ ("custom", obj [ ("note", bad) ]) ]))
     = Normal true.
Proof. repeat split; vm_compute; reflexivity. Qed.

(** An accepted string is kept as it is, and the empty string is
    refused. *)
Example appState_unknown_string_kept :
  sanitizeDrawingData
    (document [] (obj [ ("custom", str "hi<script>alert(1)</script>") ]))
  = Normal {| elements := JArr [];
              appState := obj [ ("custom", str "hi<script>alert(1)</script>") ];
              files := JUndefined;
              preview := JUndefined |}
  /\ validateImportedDrawing (document [] (obj [ ("custom", str "") ]))
     = Normal false.
Proof. split; vm_compute; reflexivity. Qed.

(** C10. The three declared colour fields of the app state are checked
    for being strings and nothing else: whatever strings they hold,
    [sanitizeDrawingData] succeeds and returns them unchanged, and
    [validateImportedDrawing] accepts the document; so for the drawing of
    the security test, whose [viewBackgroundColor] is a script block. *)
Theorem appState_colors_not_sanitized (s1 s2 s3 : jsstring) :
  let app := obj [ ("viewBackgroundColor", JStr s1);
                   ("currentItemStrokeColor", JStr s2);
                   ("currentItemBackgroundColor", JStr s3) ] in
  sanitizeDrawingData (document [] app)
  = Normal {| elements := JArr []; appState := app;
              files := JUndefined; preview := JUndefined |}
  /\ validateImportedDrawing (document [] app) = Normal true
  /\ occurs script_re (lit "<script>alert('XSS')</script>")
  /\ (exists sd,
        sanitizeDrawingData maliciousDrawing = Normal sd
        /\ appState sd
           = obj [ ("viewBackgroundColor", str "<script>alert('XSS')</script>") ])
  /\ validateImportedDrawing maliciousDrawing = Normal true.
Proof.
  split; [vm_compute; reflexivity|].
  split; [vm_compute; reflexivity|].
  split; [apply occurs_test; vm_compute; reflexivity|].
  split; [|vm_compute; reflexivity].
  eexists. split; vm_compute; reflexivity.
Qed.

End DrawingClaims.

(* ================================================================= *)
(** * Credentials *)

Section CredentialFacts.

Lemma utf8_fitting_length : forall cps room,
  (length (utf8_fitting cps room) <= room)%nat.
Proof.
  induction cps as [|cp cps IH]; intros room; simpl; [lia|].
  destruct (Nat.leb_spec (length (utf8 cp)) room) as [Hle|Hgt]; simpl; [|lia].
  rewrite length_app. specialize (IH (room - length (utf8 cp))%nat). lia.
Qed.

(** Writing into a buffer never changes its size. *)
Lemma Buffer_write_length buf s : length (Buffer_write buf s) = length buf.
Proof.
  unfold Buffer_write.
  pose proof (utf8_fitting_length (code_points s) (length buf)).
  rewrite length_app, length_skipn. lia.
Qed.

Lemma code_points_ascii : forall s,
  Forall (fun c => (c < 128)%N) s -> code_points s = s.
Proof.
  induction s as [|c s IH]; intros Hs; [reflexivity|].
  inversion Hs as [|? ? Hc Hs']; subst.
  assert (Hsur : between 55296 57343 c = false).
  { unfold between. apply andb_false_iff. left. apply N.leb_gt. lia. }
  assert (Hhigh : is_high_surrogate c = false).
  { unfold is_high_surrogate, between. apply andb_false_iff. left.
    apply N.leb_gt. lia. }
  cbn [code_points]. destruct s as [|d s].
  - rewrite Hsur. reflexivity.
  - rewrite Hhigh, Hsur. cbn [andb]. f_equal. apply IH, Hs'.
Qed.

Lemma utf8_fitting_ascii : forall s room,
  Forall (fun c => (c < 128)%N) s -> (length s <= room)%nat ->
  utf8_fitting s room = s.
Proof.
  induction s as [|c s IH]; intros room Hs Hlen; [reflexivity|].
  inversion Hs as [|? ? Hc Hs']; subst. simpl in Hlen.
  cbn [utf8_fitting]. unfold utf8.
  destruct (N.ltb_spec c 128); [|lia].
  cbn [length]. destruct (Nat.leb_spec 1 room); [|lia].
  cbn [app]. f_equal. apply IH; [assumption|lia].
Qed.

Lemma skipn_repeat {A : Type} (x : A) : forall n m,
  skipn n (repeat x m) = repeat x (m - n).
Proof.
  induction n as [|n IH]; intros m; simpl.
  - rewrite Nat.sub_0_r. reflexivity.
  - destruct m; simpl; [reflexivity | apply IH].
Qed.

(** For a user name of ASCII characters that fits, the buffer is the
    name followed by zero bytes. *)
Lemma Buffer_write_ascii s size :
  Forall (fun c => (c < 128)%N) s -> (length s <= size)%nat ->
  Buffer_write (Buffer_alloc size) s = (s ++ repeat 0%N (size - length s))%list.
Proof.
  intros Hs Hlen. unfold Buffer_write, Buffer_alloc.
  rewrite code_points_ascii, repeat_length, utf8_fitting_ascii by assumption.
  f_equal. rewrite skipn_repeat. reflexivity.
Qed.

(** For ASCII user names the user-name check is equality. *)
Lemma usernameValid_ascii (username adminUsername : jsstring) :
  Forall (fun c => (c < 128)%N) username ->
  Forall (fun c => (c < 128)%N) adminUsername ->
  let maxLength :=
    Nat.max (length username) (Nat.max (length adminUsername) 256) in
  bool_decide (Buffer_write (Buffer_alloc maxLength) username
               = Buffer_write (Buffer_alloc maxLength) adminUsername)
  && (length username =? length adminUsername)%nat
  = bool_decide (username = adminUsername).
Proof.
  intros Hu Ha maxLength.
  rewrite !Buffer_write_ascii by (assumption || (unfold maxLength; lia)).
  destruct (Nat.eqb_spec (length username) (length adminUsername)) as [Hlen|Hlen].
  - rewrite andb_true_r. apply bool_decide_ext. split.
    + intros H. apply app_inj_1 in H; tauto.
    + intros ->. reflexivity.
  - rewrite andb_false_r. symmetry. apply bool_decide_eq_false.
    intros ->. apply Hlen. reflexivity.
Qed.


End CredentialFacts.

Section CredentialClaims.



(** Before [initializeAuth] the call throws and checks nothing. *)
Example verifyCredentials_uninitialized compare_value env username password :
  verifyCredentials compare_value env None username password
  = ([], Throw (Error "Auth not initialized")).
Proof. reflexivity. Qed.

End CredentialClaims.

(* ================================================================= *)
(** * Sessions *)

Section SessionClaims.
Local Open Scope Z_scope.

(** The lifetime of a session is 24 hours plus whatever the clock
    advanced between the two readings [createSession] takes. *)
Lemma createSession_lifetime randomBytes now1 now2 sessions :
  let session := fst (createSession randomBytes now1 now2 sessions) in
  expiresAt session - createdAt session
  = 24 * 60 * 60 * 1000 + (now2 - now1).
Proof. simpl. unfold SESSION_EXPIRY_MS. lia. Qed.

(** The token is two hexadecimal digits per random byte. *)
Lemma toHex_length bytes : length (toHex bytes) = (2 * length bytes)%nat.
Proof.
  unfold toHex. induction bytes as [|b bytes IH]; simpl; [reflexivity|].
  rewrite IH. lia.
Qed.

(** C9 (as stated, refuted). The claim says that the record
    [createSession] stores has [expiresAt - createdAt] equal to 24 hours.
    [createSession] reads the clock twice, once for [createdAt] and once
    for [expiresAt]; when the clock ticks between the two readings, here
    from 1000 to 1001, the difference is 24 hours and one millisecond. *)
Lemma createSession_clock_tick :
  let session := fst (createSession [] 1000 1001 ∅) in
  expiresAt session - createdAt session = 24 * 60 * 60 * 1000 + 1
  /\ expiresAt session - createdAt session <> 24 * 60 * 60 * 1000.
Proof. split; [reflexivity | discriminate]. Qed.

(** C9 (amended). [createSession] stores under its token a record whose
    [expiresAt - createdAt] is 24 hours plus the time that passed between
    its two readings of the clock, so 24 hours exactly when the two
    readings are the same instant. [getSession] on that token, at any
    instant up to [expiresAt], returns that record and leaves the table
    as it is; at an instant past [expiresAt] it returns nothing and
    deletes the entry; for a token that is not in the table it returns
    nothing. *)
Theorem session_lifecycle (randomBytes : list N) (now1 now2 soon late : Z)
    (token : jsstring) (sessions : gmap jsstring Session) :
  soon <= now2 + 24 * 60 * 60 * 1000 ->
  now2 + 24 * 60 * 60 * 1000 < late ->
  sessions !! token = None ->
  let (session, sessions') := createSession randomBytes now1 now2 sessions in
  expiresAt session - createdAt session = 24 * 60 * 60 * 1000 + (now2 - now1)
  /\ (now1 = now2 ->
      expiresAt session - createdAt session = 24 * 60 * 60 * 1000)
  /\ expiresAt session = now2 + 24 * 60 * 60 * 1000
  /\ sessions' !! id session = Some session
  /\ getSession (id session) soon sessions' = (Some session, sessions')
  /\ getSession (id session) late sessions'
     = (None, delete (id session) sessions')
  /\ delete (id session) sessions' !! id session = None
  /\ getSession token late sessions = (None, sessions).
Proof.
  intros Hsoon Hlate Habsent. unfold createSession.
  set (session := {| id := toHex randomBytes; createdAt := now1;
                     expiresAt := now2 + SESSION_EXPIRY_MS |}).
  assert (Hlook : <[id session := session]> sessions !! id session = Some session)
    by apply lookup_insert_eq.
  split; [simpl; unfold SESSION_EXPIRY_MS; lia|].
  split; [simpl; unfold SESSION_EXPIRY_MS; lia|].
  split; [reflexivity|].
  split; [exact Hlook|].
  unfold getSession. rewrite Hlook, Habsent.
  cbn [expiresAt session]. unfold SESSION_EXPIRY_MS.
  destruct (Z.gtb_spec soon (now2 + 24 * 60 * 60 * 1000)); [lia|].
  destruct (Z.gtb_spec late (now2 + 24 * 60 * 60 * 1000)); [|lia].
  repeat split. apply lookup_delete_eq.
Qed.

Lemma session_lifecycle_witness :
  let session := {| id := lit "00ff"; createdAt := 1000;
                    expiresAt := 86401002 |} in
  expiresAt session - createdAt session = 24 * 60 * 60 * 1000 + 2
  /\ getSession (lit "00ff") 86401002 {[ lit "00ff" := session ]}
     = (Some session, {[ lit "00ff" := session ]})
  /\ getSession (lit "00ff") 86401003 {[ lit "00ff" := session ]}
     = (None, delete (lit "00ff") {[ lit "00ff" := session ]}).
Proof.
  intros session.
  pose proof (session_lifecycle [0%N; 255%N] 1000 1002 86401002 86401003
                (lit "abcd") ∅ ltac:(lia) ltac:(lia)
                (lookup_empty _)) as H.
  cbn [createSession] in H.
  destruct H as (Hlife & _ & _ & _ & Hsoon & Hlate & _).
  split; [exact Hlife|]. split; [exact Hsoon | exact Hlate].
Defined.

(** [getSession] leaves every other entry alone, and the sweep keeps
    exactly the sessions that have not expired. *)
Lemma getSession_other sessionId other now sessions :
  other <> sessionId ->
  snd (getSession sessionId now sessions) !! other = sessions !! other.
Proof.
  intros Hne. unfold getSession.
  destruct (sessions !! sessionId) as [session|]; [|reflexivity].
  destruct (now >? expiresAt session); [|reflexivity].
  simpl. apply lookup_delete_ne. congruence.
Qed.

Lemma sweep_lookup now sessions sessionId session :
  sweep now sessions !! sessionId = Some session
  <-> sessions !! sessionId = Some session /\ now <= expiresAt session.
Proof.
  unfold sweep. rewrite map_lookup_filter_Some. simpl. split.
  - intros [H1 H2]. split; [assumption|lia].
  - intros [H1 H2]. split; [assumption|lia].
Qed.

End SessionClaims.

(* ================================================================= *)
(** * Login rate limiting *)

Section RateLimitFacts.
Local Open Scope Z_scope.

(** [ceil_seconds] is the ceiling of the quotient by 1000. *)
Lemma ceil_seconds_spec ms :
  1000 * (ceil_seconds ms - 1) < ms <= 1000 * ceil_seconds ms.
Proof.
  unfold ceil_seconds.
  pose proof (Z.div_mod (- ms) 1000 ltac:(lia)).
  pose proof (Z.mod_pos_bound (- ms) 1000 ltac:(lia)).
  lia.
Qed.

Lemma ceil_seconds_pos ms : 0 < ceil_seconds ms <-> 0 < ms.
Proof. pose proof (ceil_seconds_spec ms). lia. Qed.

Lemma loginRateLimit_first req now loginAttempts :
  loginAttempts !! client_ip req = None ->
  loginRateLimit req now loginAttempts
  = (Next, <[client_ip req := {| count := 1;
                                resetTime := now + LOGIN_RATE_LIMIT_WINDOW |}]>
             loginAttempts).
Proof. intros H. unfold loginRateLimit. rewrite H. reflexivity. Qed.

Lemma loginRateLimit_elapsed req now loginAttempts attempts :
  loginAttempts !! client_ip req = Some attempts ->
  resetTime attempts < now ->
  loginRateLimit req now loginAttempts
  = (Next, <[client_ip req := {| count := 1;
                                resetTime := now + LOGIN_RATE_LIMIT_WINDOW |}]>
             loginAttempts).
Proof.
  intros H Hnow. unfold loginRateLimit. rewrite H.
  destruct (Z.gtb_spec now (resetTime attempts)); [reflexivity|lia].
Qed.

Lemma loginRateLimit_counted req now loginAttempts attempts :
  loginAttempts !! client_ip req = Some attempts ->
  now <= resetTime attempts ->
  count attempts < LOGIN_MAX_ATTEMPTS ->
  loginRateLimit req now loginAttempts
  = (Next, <[client_ip req := {| count := count attempts + 1;
                                resetTime := resetTime attempts |}]>
             loginAttempts).
Proof.
  intros H Hnow Hcount. unfold loginRateLimit. rewrite H.
  destruct (Z.gtb_spec now (resetTime attempts)); [lia|].
  destruct (Z.geb_spec (count attempts) LOGIN_MAX_ATTEMPTS); [lia|reflexivity].
Qed.

Lemma loginRateLimit_rejected req now loginAttempts attempts :
  loginAttempts !! client_ip req = Some attempts ->
  now <= resetTime attempts ->
  LOGIN_MAX_ATTEMPTS <= count attempts ->
  loginRateLimit req now loginAttempts
  = (TooManyRequests (ceil_seconds (resetTime attempts - now)), loginAttempts).
Proof.
  intros H Hnow Hcount. unfold loginRateLimit. rewrite H.
  destruct (Z.gtb_spec now (resetTime attempts)); [lia|].
  destruct (Z.geb_spec (count attempts) LOGIN_MAX_ATTEMPTS); [reflexivity|lia].
Qed.

(** Six attempts of one client, none after the reset time that the
    first one sets: five pass, the sixth is answered 429. *)
Lemma loginRateLimit_six_attempts req t1 t2 t3 t4 t5 t6 loginAttempts :
  loginAttempts !! client_ip req = None ->
  t2 <= t1 + LOGIN_RATE_LIMIT_WINDOW ->
  t3 <= t1 + LOGIN_RATE_LIMIT_WINDOW ->
  t4 <= t1 + LOGIN_RATE_LIMIT_WINDOW ->
  t5 <= t1 + LOGIN_RATE_LIMIT_WINDOW ->
  t6 <= t1 + LOGIN_RATE_LIMIT_WINDOW ->
  loginRateLimit_run
    [(req, t1); (req, t2); (req, t3); (req, t4); (req, t5); (req, t6)]
    loginAttempts
  = ([Next; Next; Next; Next; Next;
      TooManyRequests (ceil_seconds (t1 + LOGIN_RATE_LIMIT_WINDOW - t6))],
     <[client_ip req := {| count := 5;
                           resetTime := t1 + LOGIN_RATE_LIMIT_WINDOW |}]>
       loginAttempts).
Proof.
  intros Hnone H2 H3 H4 H5 H6.
  cbn [loginRateLimit_run].
  rewrite (loginRateLimit_first _ _ _ Hnone).
  do 4 (erewrite loginRateLimit_counted;
        [|apply lookup_insert_eq|cbn [resetTime]; assumption
         |cbn [count]; unfold LOGIN_MAX_ATTEMPTS; lia];
        rewrite insert_insert_eq; cbn [count resetTime]).
  erewrite loginRateLimit_rejected;
    [|apply lookup_insert_eq|cbn [resetTime]; assumption
     |cbn [count]; unfold LOGIN_MAX_ATTEMPTS; lia].
  reflexivity.
Qed.

End RateLimitFacts.

Section RateLimitClaims.
Local Open Scope Z_scope.

(** C4 (as stated, refuted). The claim ends: five attempts from one
    address within one window pass and the sixth is rejected with a
    positive retry-after. The window has elapsed when [now > resetTime];
    a sixth attempt at the instant [resetTime] itself is still inside it
    and is rejected with [retryAfter = 0]. *)
Lemma loginRateLimit_retry_after_zero :
  ~ (forall (req : Request) (t1 t2 t3 t4 t5 t6 : Z)
            (loginAttempts : gmap jsstring Attempts),
       loginAttempts !! client_ip req = None ->
       t2 <= t1 + LOGIN_RATE_LIMIT_WINDOW ->
       t3 <= t1 + LOGIN_RATE_LIMIT_WINDOW ->
       t4 <= t1 + LOGIN_RATE_LIMIT_WINDOW ->
       t5 <= t1 + LOGIN_RATE_LIMIT_WINDOW ->
       t6 <= t1 + LOGIN_RATE_LIMIT_WINDOW ->
       exists retryAfter,
         fst (loginRateLimit_run
                [(req, t1); (req, t2); (req, t3); (req, t4); (req, t5); (req, t6)]
                loginAttempts)
         = [Next; Next; Next; Next; Next; TooManyRequests retryAfter]
         /\ 0 < retryAfter).
Proof.
  intros H.
  destruct (H {| ip := Some (lit "203.0.113.7"); remoteAddress := None |}
              0 0 0 0 0 900000 ∅ (lookup_empty _))
    as (retryAfter & Hrun & Hpos); try (unfold LOGIN_RATE_LIMIT_WINDOW; lia).
  rewrite loginRateLimit_six_attempts in Hrun;
    try (unfold LOGIN_RATE_LIMIT_WINDOW; lia); [|apply lookup_empty].
  cbn [fst] in Hrun. injection Hrun as <-.
  revert Hpos. vm_compute. discriminate.
Qed.

(** C4 (amended). The limiter keeps one counter per client address, with
    a window of 15 minutes and at most 5 attempts. Without a counter the
    attempt creates one ([count = 1], reset at [now + window]) and passes;
    when [now] is past the reset time the counter is reset in the same
    way and the attempt passes; in an active window with [count < 5] the
    count goes up by one and the attempt passes; with [count >= 5] the
    attempt is rejected, the counter stays as it is, and [retryAfter] is
    the ceiling of the remaining milliseconds over 1000, which is positive
    exactly when [now] is before the reset time. So of six attempts within
    the window of the first, five pass and the sixth is rejected, with a
    positive retry-after when it comes before the reset instant. *)
Theorem loginRateLimit_window (req : Request) (now : Z)
    (loginAttempts : gmap jsstring Attempts) :
  LOGIN_RATE_LIMIT_WINDOW = 15 * 60 * 1000
  /\ LOGIN_MAX_ATTEMPTS = 5
  /\ (loginAttempts !! client_ip req = None ->
      loginRateLimit req now loginAttempts
      = (Next, <[client_ip req := {| count := 1; resetTime := now + 900000 |}]>
                 loginAttempts))
  /\ (forall attempts,
        loginAttempts !! client_ip req = Some attempts ->
        (resetTime attempts < now ->
         loginRateLimit req now loginAttempts
         = (Next, <[client_ip req := {| count := 1; resetTime := now + 900000 |}]>
                    loginAttempts))
        /\ (now <= resetTime attempts -> count attempts < 5 ->
            loginRateLimit req now loginAttempts
            = (Next, <[client_ip req := {| count := count attempts + 1;
                                          resetTime := resetTime attempts |}]>
                       loginAttempts))
        /\ (now <= resetTime attempts -> 5 <= count attempts ->
            exists retryAfter,
              loginRateLimit req now loginAttempts
              = (TooManyRequests retryAfter, loginAttempts)
              /\ 1000 * (retryAfter - 1) < resetTime attempts - now
                 <= 1000 * retryAfter
              /\ (0 < retryAfter <-> now < resetTime attempts)))
  /\ (forall t2 t3 t4 t5 t6,
        loginAttempts !! client_ip req = None ->
        t2 <= now + 900000 -> t3 <= now + 900000 -> t4 <= now + 900000 ->
        t5 <= now + 900000 -> t6 <= now + 900000 ->
        exists retryAfter,
          loginRateLimit_run
            [(req, now); (req, t2); (req, t3); (req, t4); (req, t5); (req, t6)]
            loginAttempts
          = ([Next; Next; Next; Next; Next; TooManyRequests retryAfter],
             <[client_ip req := {| count := 5; resetTime := now + 900000 |}]>
               loginAttempts)
          /\ 1000 * (retryAfter - 1) < now + 900000 - t6 <= 1000 * retryAfter
          /\ (0 < retryAfter <-> t6 < now + 900000)).
Proof.
  split; [reflexivity|]. split; [reflexivity|].
  split; [apply loginRateLimit_first|].
  split.
  - intros attempts Hlook. split; [|split].
    + apply loginRateLimit_elapsed, Hlook.
    + intros Hnow Hcount. apply loginRateLimit_counted; assumption.
    + intros Hnow Hcount.
      exists (ceil_seconds (resetTime attempts - now)).
      split; [apply loginRateLimit_rejected; assumption|].
      split; [apply ceil_seconds_spec|].
      rewrite ceil_seconds_pos. lia.
  - intros t2 t3 t4 t5 t6 Hnone H2 H3 H4 H5 H6.
    exists (ceil_seconds (now + 900000 - t6)).
    split; [apply loginRateLimit_six_attempts; assumption|].
    split; [apply ceil_seconds_spec|].
    rewrite ceil_seconds_pos. lia.
Qed.

Lemma loginRateLimit_window_witness :
  let req := {| ip := Some (lit "203.0.113.7"); remoteAddress := None |} in
  exists retryAfter,
    loginRateLimit_run
      [(req, 0); (req, 10); (req, 20); (req, 30); (req, 40); (req, 1500)] ∅
    = ([Next; Next; Next; Next; Next; TooManyRequests retryAfter],
       {[ client_ip req := {| count := 5; resetTime := 900000 |} ]})
    /\ 0 < retryAfter.
Proof.
  intros req.
  destruct (loginRateLimit_window req 0 ∅) as (_ & _ & _ & _ & Hrun).
  destruct (Hrun 10 20 30 40 1500 (lookup_empty _)
              ltac:(lia) ltac:(lia) ltac:(lia) ltac:(lia) ltac:(lia))
    as (retryAfter & Heq & _ & Hpos).
  exists retryAfter. split; [exact Heq|]. apply Hpos. lia.
Defined.

(** After the window the next attempt passes and the count is 1 again. *)
Example loginRateLimit_after_window :
  let req := {| ip := Some (lit "203.0.113.7"); remoteAddress := None |} in
  loginRateLimit req 900001
    {[ client_ip req := {| count := 5; resetTime := 900000 |} ]}
  = (Next, {[ client_ip req := {| count := 1; resetTime := 1800001 |} ]}).
Proof.
  intros req. erewrite loginRateLimit_elapsed;
    [|apply lookup_singleton_eq|simpl; lia].
  rewrite insert_singleton_eq. reflexivity.
Qed.

(** A request without an address is counted under the key [unknown]. *)
Example client_ip_unknown :
  client_ip {| ip := Some []; remoteAddress := None |} = lit "unknown".
Proof. reflexivity. Qed.

End RateLimitClaims.

(* ================================================================= *)
(** * Further properties of the sanitizers *)

(* ================================================================= *)
(** * More about the string sanitizers *)

Section TrimFacts.

Lemma trimStart_fixed_cons c s : is_space c = false -> trimStart (c :: s) = c :: s.
Proof. intros H. simpl. rewrite H. reflexivity. Qed.

Lemma trimStart_idem s : trimStart (trimStart s) = trimStart s.
Proof.
  induction s as [|c s IH]; [reflexivity|]. simpl.
  destruct (is_space c) eqn:E; [exact IH|]. simpl. rewrite E. reflexivity.
Qed.

Lemma trimStart_snoc : forall l c,
  is_space c = false -> trimStart (l ++ [c]) = trimStart l ++ [c].
Proof.
  induction l as [|x l IH]; intros c Hc; simpl.
  - rewrite Hc. reflexivity.
  - destruct (is_space x); [apply IH, Hc | reflexivity].
Qed.

Lemma trimEnd_cons c s : is_space c = false -> trimEnd (c :: s) = c :: trimEnd s.
Proof.
  intros Hc. unfold trimEnd. simpl.
  rewrite trimStart_snoc by assumption. rewrite rev_app_distr. reflexivity.
Qed.

Lemma trimEnd_idem s : trimEnd (trimEnd s) = trimEnd s.
Proof. unfold trimEnd. rewrite rev_involutive, trimStart_idem. reflexivity. Qed.

(** The result of [trim] begins and ends with a code unit that is not
    white space, so [trim] leaves it as it is. *)
Lemma trim_idem s : trim (trim s) = trim s.
Proof.
  unfold trim.
  assert (H : trimStart (trimEnd (trimStart s)) = trimEnd (trimStart s)).
  { induction s as [|c s IH]; [reflexivity|]. simpl.
    destruct (is_space c) eqn:E; [exact IH|].
    rewrite trimEnd_cons by assumption. apply trimStart_fixed_cons, E. }
  rewrite H. apply trimEnd_idem.
Qed.

Lemma trim_nil : trim [] = [].
Proof. reflexivity. Qed.

End TrimFacts.

Section RequiredCharacters.

(** A match of a pattern that requires [q] runs over a code unit that
    satisfies [q]. *)
Lemma requires_sound q r :
  requires q r ->
  forall st k n,
    rmatch r st k = Some n ->
    exists st' cs,
      k st' = Some n
      /\ m_rest st = (cs ++ m_rest st')%list
      /\ Exists (fun c => q c = true) cs.
Proof.
  induction 1 as [p Hp|r1 r2 _ IH|r1 r2 _ IH|r1 r2 _ IH1 _ IH2];
    intros st k n; simpl.
  - destruct st as [pv [|c tl] e]; simpl; [discriminate|].
    destruct (p c) eqn:E; [|discriminate]. intros Hk.
    eexists _, [c]. split; [exact Hk|]. split; [reflexivity|].
    constructor. apply Hp, E.
  - intros H. apply IH in H as (st1 & cs1 & H & Hrest1 & Hq).
    apply rmatch_sound in H as (st2 & Hk & cs2 & Hrest2 & _).
    exists st2, (cs1 ++ cs2)%list. split; [exact Hk|].
    split; [rewrite Hrest1, Hrest2, app_assoc; reflexivity|].
    apply Exists_app. left. exact Hq.
  - intros H. apply rmatch_sound in H as (st1 & H & cs1 & Hrest1 & _).
    apply IH in H as (st2 & cs2 & Hk & Hrest2 & Hq).
    exists st2, (cs1 ++ cs2)%list. split; [exact Hk|].
    split; [rewrite Hrest1, Hrest2, app_assoc; reflexivity|].
    apply Exists_app. right. exact Hq.
  - destruct (rmatch r1 st k) as [n1|] eqn:E.
    + intros [= <-]. apply IH1 in E. exact E.
    + apply IH2.
Qed.

Lemma regex_exec_requires q r prev s :
  requires q r ->
  Forall (fun c => q c = false) s ->
  regex_exec r prev s = None.
Proof.
  intros Hreq Hs. unfold regex_exec.
  destruct (rmatch r _ _) as [n|] eqn:E; [exfalso|reflexivity].
  apply (requires_sound q r Hreq) in E as (st' & cs & _ & Hrest & Hq).
  simpl in Hrest. subst s. apply Forall_app in Hs as [Hs _].
  apply Exists_exists in Hq as (c & Hin & Hc).
  rewrite Forall_forall in Hs. specialize (Hs c Hin). congruence.
Qed.

(** A pass whose pattern requires a character that the string does not
    hold changes nothing. *)
Lemma replace_scan_requires q r repl :
  requires q r ->
  forall s prev,
    Forall (fun c => q c = false) s ->
    replace_scan r repl prev s 0 = s.
Proof.
  intros Hreq. induction s as [|c s IH]; intros prev Hs; simpl.
  - rewrite (regex_exec_requires q r prev [] Hreq Hs). reflexivity.
  - rewrite (regex_exec_requires q r prev (c :: s) Hreq Hs).
    f_equal. apply IH. inversion Hs; assumption.
Qed.

Lemma markup_ci c x :
  markup_char c = true -> ci c x = true -> markup_char x = true.
Proof.
  unfold markup_char. intros Hc Hx.
  rewrite <- is_char_ci in Hx.
  - unfold is_char in Hx. apply N.eqb_eq in Hx. subst x. exact Hc.
  - unfold between.
    destruct (N.eqb_spec c 60) as [->|]; [reflexivity|].
    destruct (N.eqb_spec c 58) as [->|]; [reflexivity|].
    destruct (N.eqb_spec c 61) as [->|]; [reflexivity|discriminate].
  - unfold between.
    destruct (N.eqb_spec c 60) as [->|]; [reflexivity|].
    destruct (N.eqb_spec c 58) as [->|]; [reflexivity|].
    destruct (N.eqb_spec c 61) as [->|]; [reflexivity|discriminate].
Qed.

Ltac needs_markup :=
  solve [ apply requires_Char; intros x Hx;
          first [ solve [eapply markup_ci; [|exact Hx]; reflexivity]
                | unfold is_char in Hx; apply N.eqb_eq in Hx; subst x;
                  reflexivity ]
        | apply requires_Seq_l; needs_markup
        | apply requires_Seq_r; needs_markup ].

Lemma block_re_requires tag : requires markup_char (block_re tag).
Proof.
  unfold block_re. do 4 apply requires_Seq_l.
  change (ilit ("<" ++ tag)) with (ilit_of (60%N :: lit tag)).
  destruct (lit tag) as [|c cs] eqn:E; cbn [ilit_of].
  - apply requires_Char. intros x Hx. (eapply markup_ci; [|exact Hx]; reflexivity).
  - apply requires_Seq_l, requires_Char. intros x Hx.
    (eapply markup_ci; [|exact Hx]; reflexivity).
Qed.

Lemma html_passes_require :
  Forall (fun pass => requires markup_char (fst pass)) html_passes.
Proof.
  unfold html_passes.
  repeat (apply List.Forall_cons; [cbn [fst]|]); try apply List.Forall_nil;
    try apply block_re_requires.
  - unfold javascript_re, ilit. simpl. needs_markup.
  - unfold handler_re. needs_markup.
  - unfold link_re, ilit. simpl. needs_markup.
Qed.

Lemma svg_passes_require :
  Forall (fun pass => requires markup_char (fst pass)) svg_passes.
Proof.
  unfold svg_passes.
  repeat (apply List.Forall_cons; [cbn [fst]|]); try apply List.Forall_nil;
    try apply block_re_requires.
  - unfold javascript_re, ilit. simpl. needs_markup.
  - unfold handler_re. needs_markup.
  - unfold href_re, js_attr_re. needs_markup.
  - unfold xlink_href_re, js_attr_re. needs_markup.
Qed.

Lemma run_passes_plain passes s :
  Forall (fun pass => requires markup_char (fst pass)) passes ->
  Forall (fun c => markup_char c = false) s ->
  run_passes passes s = s.
Proof.
  intros Hreq Hs. apply run_passes_fixed.
  induction Hreq as [|[r repl] passes Hr _ IH];
    [apply List.Forall_nil | apply List.Forall_cons; [|exact IH]].
  simpl in *. apply (replace_scan_requires markup_char); assumption.
Qed.

End RequiredCharacters.

Section SanitizerExtras.

Lemma sanitizeSvg_length s : length (sanitizeSvg_str s) <= length s.
Proof.
  rewrite sanitizeSvg_passes.
  etransitivity; [apply trim_length|].
  apply run_passes_length. eapply Forall_impl; [apply svg_passes_shortening|].
  intros pass H. exact H.
Qed.

(** What [sanitizeText] guarantees, for a bound that is not negative. *)
Lemma sanitizeText_safe input (B : Z) :
  (0 <= B)%Z -> text_safe B (sanitizeText input B).
Proof.
  intros HB. unfold text_safe.
  destruct input as [s|]; [|split; [cbn; lia | constructor]].
  unfold sanitizeText, replace_all.
  rewrite replace_control_filter, slice0_firstn by assumption.
  set (kept := firstn (Z.to_nat B) (List.filter (fun c => negb (is_control c)) s)).
  pose proof (sanitizeHtml_sublist kept) as Hsub. cbn [sanitizeHtml]. split.
  - apply sublist_length in Hsub. unfold kept in *.
    rewrite length_firstn in Hsub. lia.
  - apply Forall_forall. intros c Hc.
    pose proof (elem_of_sublist _ _ _ Hc Hsub) as Hin.
    unfold kept in Hin.
    pose proof (elem_of_sublist _ _ _ Hin (sublist_take _ (Z.to_nat B))) as Hin'.
    apply (proj1 (list_elem_of_In _ _)), List.filter_In in Hin'.
    destruct Hin' as [_ Hneg]. apply negb_true_iff, Hneg.
Qed.

(** X1. [sanitizeHtml] only deletes: its result is a subsequence of the
    input, so never longer and never holding a code unit the input did not
    hold, and it carries no white space at either end; an input that is
    not a string gives the empty string. *)
Theorem sanitizeHtml_only_deletes (s : jsstring) :
  sanitizeHtml (Some s) `sublist_of` s
  /\ length (sanitizeHtml (Some s)) <= length s
  /\ trimmed (sanitizeHtml (Some s))
  /\ sanitizeHtml None = [].
Proof.
  split; [apply sanitizeHtml_sublist|].
  split; [apply sublist_length, sanitizeHtml_sublist|].
  split; [|reflexivity].
  unfold trimmed. simpl. unfold sanitizeHtml_str. apply trim_idem.
Qed.

(** X2. [sanitizeSvg] replaces two of its patterns by a text instead of
    deleting them, and still never returns more code units than it was
    given; its result carries no white space at either end. *)
Theorem sanitizeSvg_never_longer (s : jsstring) :
  length (sanitizeSvg (Some s)) <= length s
  /\ trimmed (sanitizeSvg (Some s))
  /\ sanitizeSvg None = [].
Proof.
  split; [apply sanitizeSvg_length|]. split; [|reflexivity].
  unfold trimmed. simpl. unfold sanitizeSvg_str. apply trim_idem.
Qed.

(** X3. Text without [<], [:] and [=] is left alone: [sanitizeHtml] and
    [sanitizeSvg] only trim it, and so does [sanitizeText] when the text
    also holds no control character to delete and fits the bound. *)
Theorem sanitizers_keep_plain_text (s : jsstring) (B : Z) :
  Forall (fun c => markup_char c = false) s ->
  sanitizeHtml (Some s) = trim s
  /\ sanitizeSvg (Some s) = trim s
  /\ (Forall (fun c => is_control c = false) s ->
      (Z.of_nat (length s) <= B)%Z ->
      sanitizeText (Some s) B = trim s).
Proof.
  intros Hs.
  assert (Hhtml : sanitizeHtml_str s = trim s).
  { rewrite sanitizeHtml_passes, run_passes_plain;
      [reflexivity | apply html_passes_require | exact Hs]. }
  split; [exact Hhtml|]. split.
  - simpl. rewrite sanitizeSvg_passes, run_passes_plain;
      [reflexivity | apply svg_passes_require | exact Hs].
  - intros Hctl HB. unfold sanitizeText, replace_all.
    rewrite replace_control_filter, slice0_firstn by lia.
    replace (List.filter (fun c => negb (is_control c)) s) with s.
    + rewrite firstn_all2 by lia. exact Hhtml.
    + symmetry. apply forallb_filter_id. apply forallb_forall.
      intros c Hc. rewrite List.Forall_forall in Hctl.
      rewrite (Hctl c Hc). reflexivity.
Qed.

Lemma sanitizers_keep_plain_text_witness :
  sanitizeHtml (Some (lit "  Hello, world! (1 + 1 > 1)  "))
  = lit "Hello, world! (1 + 1 > 1)"
  /\ sanitizeText (Some (lit " line one ")) 1000 = lit "line one".
Proof.
  split.
  - apply (sanitizers_keep_plain_text (lit "  Hello, world! (1 + 1 > 1)  ") 0).
    repeat constructor.
  - apply (sanitizers_keep_plain_text (lit " line one ") 1000);
      [repeat constructor | repeat constructor | simpl; lia].
Defined.

(** X4. Sanitizing again and again settles: within as many rounds as the
    input has code units, [sanitizeHtml], and likewise [sanitizeSvg],
    reaches a string that a further round leaves unchanged, and that
    string holds no script block, no [javascript:] and no inline event
    handler. *)
Theorem sanitizers_settle_clean (s : jsstring) :
  (exists n, n <= length s
     /\ let t := Nat.iter n (fun x => sanitizeHtml (Some x)) s in
        sanitizeHtml (Some t) = t /\ clean t)
  /\ (exists n, n <= length s
        /\ let t := Nat.iter n (fun x => sanitizeSvg (Some x)) s in
           sanitizeSvg (Some t) = t /\ clean t).
Proof.
  split.
  - destruct (sanitizer_reaches_fixed_point html_passes html_passes_shortening s)
      as (n & Hn & Hfix).
    exists n. split; [exact Hn|]. cbn zeta in *.
    change (fun x => sanitizeHtml (Some x))
      with (fun x => trim (run_passes html_passes x)).
    split; [exact Hfix | apply sanitizeHtml_fixed, Hfix].
  - destruct (sanitizer_reaches_fixed_point svg_passes svg_passes_shortening s)
      as (n & Hn & Hfix).
    exists n. split; [exact Hn|]. cbn zeta in *.
    change (fun x => sanitizeSvg (Some x))
      with (fun x => trim (run_passes svg_passes x)).
    split; [exact Hfix | apply sanitizeSvg_fixed, Hfix].
Qed.

Lemma sanitizeUrl_safe_idem (url : option jsstring) :
  url_safe (sanitizeUrl url)
  /\ sanitizeUrl (Some (sanitizeUrl url)) = sanitizeUrl url.
Proof.
  rewrite !sanitizeUrl_is_any_case.
  assert (Hnil : url_safe [] /\ sanitizeUrl_any_case (Some []) = []).
  { split; [split; [reflexivity | left; reflexivity] | reflexivity]. }
  destruct url as [s|]; [|exact Hnil].
  assert (Hout : sanitizeUrl_any_case (Some s) = []
                 \/ sanitizeUrl_any_case (Some s) = trim s
                    /\ begins_with_any blocked_schemes (trim s) = false
                    /\ begins_with_any allowed_prefixes (trim s) = true).
  { unfold sanitizeUrl_any_case.
    destruct (begins_with_any blocked_schemes (trim s)); [left; reflexivity|].
    destruct (begins_with_any allowed_prefixes (trim s)); [right|left]; auto. }
  destruct Hout as [->|(-> & Eb & Ea)]; [exact Hnil|].
  split; [split; [exact Eb | right; exact Ea]|].
  unfold sanitizeUrl_any_case. rewrite trim_idem, Eb, Ea. reflexivity.
Qed.

(** X5. Whatever it is given, [sanitizeUrl] never returns a value that
    begins with [javascript:], [data:] or [vbscript:] in any letter case:
    the result is empty or begins with an allowed prefix, and sanitizing
    it again returns it unchanged. *)
Theorem sanitizeUrl_output_safe (url : option jsstring) :
  begins_with_any blocked_schemes (sanitizeUrl url) = false
  /\ (sanitizeUrl url = []
      \/ begins_with_any allowed_prefixes (sanitizeUrl url) = true)
  /\ sanitizeUrl (Some (sanitizeUrl url)) = sanitizeUrl url.
Proof.
  destruct (sanitizeUrl_safe_idem url) as [[Hb Ha] Hidem]. auto.
Qed.

End SanitizerExtras.

(* ================================================================= *)
(** * Further properties of the drawing schema *)

(* ================================================================= *)
(** * More about drawing documents *)

Section SchemaFacts.

(** [zparse] on an object schema, by its two loops. *)
Lemma zparse_object shape unknown catchall fields :
  zparse (ZObject shape unknown catchall) (JObj fields)
  = match parse_shape shape fields with
    | None => None
    | Some known =>
        match catchall with
        | None =>
            match unknown with
            | Passthrough => Some (JObj (known ++ extra_keys shape fields))
            | Strict =>
                match extra_keys shape fields with
                | [] => Some (JObj known)
                | _ :: _ => None
                end
            | Strip => Some (JObj known)
            end
        | Some c =>
            option_map (fun ys => JObj (known ++ ys))
              (parse_each c (extra_keys shape fields))
        end
    end.
Proof.
  cbn [zparse].
  match goal with
  | |- match ?f shape with _ => _ end = _ =>
      assert (Hshape : forall sh, f sh = parse_shape sh fields)
  end.
  { induction sh as [|[k sch] sh IH]; [reflexivity|].
    cbn [parse_shape]. rewrite <- IH. reflexivity. }
  rewrite Hshape. destruct (parse_shape shape fields) as [known|]; [|reflexivity].
  destruct catchall as [c|]; [|reflexivity].
  match goal with
  | |- option_map _ (?f _) = _ =>
      assert (Heach : forall l, f l = parse_each c l)
  end.
  { induction l as [|[k x] l IH]; [reflexivity|].
    cbn [parse_each]. rewrite <- IH. reflexivity. }
  rewrite Heach. reflexivity.
Qed.

Lemma zparse_array_items item : forall l,
  zparse (ZArray item) (JArr l)
  = option_map JArr
      (foldr (fun x acc =>
                match zparse item x, acc with
                | Some y, Some ys => Some (y :: ys)
                | _, _ => None
                end) (Some []) l).
Proof.
  intros l. reflexivity.
Qed.

(** An array is refused as soon as one item is refused. *)
Lemma zparse_array_refused item l x :
  In x l -> zparse item x = None -> zparse (ZArray item) (JArr l) = None.
Proof.
  intros Hin Hx. rewrite zparse_array_items.
  induction l as [|y l IH]; [destruct Hin|]. cbn [foldr].
  destruct Hin as [->|Hin].
  - rewrite Hx. reflexivity.
  - specialize (IH Hin).
    destruct (foldr _ _ l); [discriminate|].
    destruct (zparse item y); reflexivity.
Qed.

(** Every item of a parsed array is the parsed form of an input item. *)
Lemma zparse_array_item item : forall l l' y,
  zparse (ZArray item) (JArr l) = Some (JArr l') ->
  In y l' -> exists x, In x l /\ zparse item x = Some y.
Proof.
  intros l l' y. rewrite zparse_array_items.
  revert l'. induction l as [|x l IH]; intros l'; cbn [foldr option_map].
  - intros [= <-] [].
  - destruct (zparse item x) as [y0|] eqn:Ex; [|discriminate].
    destruct (foldr _ _ l) as [ys|] eqn:El; [|discriminate].
    cbn [option_map]. intros [= <-] [<-|Hin].
    + exists x. split; [left; reflexivity | exact Ex].
    + destruct (IH ys eq_refl Hin) as (x' & Hx' & Hp).
      exists x'. split; [right; exact Hx' | exact Hp].
Qed.

Lemma eqb_refl k : JsString.eqb k k = true.
Proof. unfold JsString.eqb. apply bool_decide_eq_true. reflexivity. Qed.

Lemma eqb_neq k k' : k <> k' -> JsString.eqb k k' = false.
Proof. unfold JsString.eqb. apply bool_decide_eq_false. Qed.

(** The parsed value of a declared property is found in the result under
    its key, when the keys of the shape are distinct. *)
Lemma parse_shape_field fields : forall shape known k sch,
  parse_shape shape fields = Some known ->
  NoDup (map fst shape) ->
  In (k, sch) shape ->
  exists y, zparse sch (field k fields) = Some y
            /\ (y <> JUndefined -> field k known = y).
Proof.
  induction shape as [|[k0 sch0] shape IH]; intros known k sch Hp Hnd Hin;
    [destruct Hin|].
  cbn [parse_shape] in Hp.
  destruct (zparse sch0 (field k0 fields)) as [y0|] eqn:E0; [|discriminate].
  destruct (parse_shape shape fields) as [ys|] eqn:Ep; [|discriminate].
  cbn [map fst] in Hnd. apply NoDup_cons in Hnd as [Hnotin Hnd].
  destruct Hin as [[= -> ->]|Hin].
  - exists y0. split; [exact E0|]. intros Hy.
    assert (known = (k, y0) :: ys) as ->.
    { destruct y0; try (injection Hp as <-; reflexivity). congruence. }
    unfold field. cbn [assoc]. rewrite eqb_refl. reflexivity.
  - destruct (IH ys k sch eq_refl Hnd Hin) as (y & Hy & Hfield).
    exists y. split; [exact Hy|]. intros Hdef. specialize (Hfield Hdef).
    assert (Hne : k0 <> k).
    { intros ->. apply Hnotin. apply list_elem_of_In.
      apply (in_map fst) in Hin. exact Hin. }
    assert (Hknown : known = ys \/ exists y1, known = (k0, y1) :: ys).
    { destruct y0; try (right; eexists; injection Hp as <-; reflexivity).
      destruct (has_key k0 fields); injection Hp as <-; eauto. }
    destruct Hknown as [->|[y1 ->]]; [exact Hfield|].
    unfold field in *. cbn [assoc]. rewrite (eqb_neq _ _ Hne). exact Hfield.
Qed.

End SchemaFacts.

Section DrawingExtras.
Local Open Scope string_scope.

Lemma elementSchema_object :
  elementSchema = ZObject (shape_of elementSchema) Strict None.
Proof. reflexivity. Qed.

Lemma elementSchema_keys : NoDup (map fst (shape_of elementSchema)).
Proof. refine (bool_decide_unpack _ _). vm_compute. exact I. Qed.

(** An element with a property the schema does not declare is refused. *)
Lemma element_unknown_key_refused e key v :
  In (key, v) e ->
  shape_has (shape_of elementSchema) key = false ->
  zparse elementSchema (JObj e) = None.
Proof.
  intros Hin Hkey. rewrite elementSchema_object, zparse_object.
  destruct (parse_shape _ e); [|reflexivity].
  assert (Hex : In (key, v) (extra_keys (shape_of elementSchema) e)).
  { apply List.filter_In. split; [exact Hin|]. cbn [fst].
    rewrite Hkey. reflexivity. }
  destruct (extra_keys _ e); [destruct Hex | reflexivity].
Qed.

(** What an accepted element looks like: an object again, with the same
    [id], the [link] replaced by what [sanitizeUrl] makes of it and the
    [text] by what [sanitizeText] makes of it with the bound 5000. *)
Lemma element_parsed e e' :
  zparse elementSchema e = Some e' ->
  exists fields fields',
    e = JObj fields /\ e' = JObj fields'
    /\ field (lit "id") fields' = field (lit "id") fields
    /\ field (lit "link") fields'
       = JStr (sanitizeUrl (as_string (field (lit "link") fields)))
    /\ field (lit "text") fields'
       = JStr (sanitizeText (as_string (field (lit "text") fields)) 5000).
Proof.
  rewrite elementSchema_object. intros Hp.
  destruct e as [| | | | | |fields]; try discriminate.
  rewrite zparse_object in Hp.
  destruct (parse_shape (shape_of elementSchema) fields) as [known|] eqn:Ek;
    [|discriminate].
  destruct (extra_keys _ fields); [|discriminate]. injection Hp as <-.
  exists fields, known. split; [reflexivity|]. split; [reflexivity|].
  pose proof (fun k sch =>
                parse_shape_field fields _ known k sch Ek elementSchema_keys)
    as Hfield.
  split; [|split].
  - destruct (Hfield (lit "id") (ZString (Some 1%nat) (Some 100%nat)))
      as (y & Hy & Hset); [left; reflexivity|].
    cbn [zparse] in Hy.
    destruct (field (lit "id") fields) as [| | | |x| |]; try discriminate.
    destruct (_ && _); [|discriminate]. injection Hy as <-.
    apply Hset. discriminate.
  - destruct (Hfield (lit "link")
                (ZTransform (ZOptional any_string)
                   (fun val => JStr (sanitizeUrl (as_string val)))))
      as (y & Hy & Hset); [do 21 right; left; reflexivity|].
    cbn [zparse any_string] in Hy.
    destruct (field (lit "link") fields) as [| | | |x| |];
      try discriminate; injection Hy as <-; apply Hset; discriminate.
  - destruct (Hfield (lit "text")
                (ZTransform (ZOptional any_string)
                   (fun val => JStr (sanitizeText (as_string val) 5000))))
      as (y & Hy & Hset); [do 23 right; left; reflexivity|].
    cbn [zparse any_string] in Hy.
    destruct (field (lit "text") fields) as [| | | |x| |];
      try discriminate; injection Hy as <-; apply Hset; discriminate.
Qed.

(** Where the parts of a sanitized drawing come from. *)
Lemma sanitizeDrawingData_parts data sd :
  sanitizeDrawingData data = Normal sd ->
  exists de da dp df,
    get data "elements" = Normal de
    /\ get data "appState" = Normal da
    /\ get data "preview" = Normal dp
    /\ get data "files" = Normal df
    /\ zparse (ZArray elementSchema) de = Some (elements sd)
    /\ zparse appStateSchema da = Some (appState sd)
    /\ preview sd = match dp with
                    | JStr s => JStr (sanitizeSvg (Some s))
                    | _ => dp
                    end
    /\ files sd = match df with
                  | JArr _ | JObj _ => json_sanitize df
                  | _ => df
                  end.
Proof.
  unfold sanitizeDrawingData. intros H.
  destruct (get data "elements") as [de|] eqn:Ee;
    cbn [mbind completion_bind try_catch] in H; [|discriminate].
  destruct (parse (ZArray elementSchema) de) as [es|] eqn:Epe;
    cbn [mbind completion_bind try_catch] in H; [|discriminate].
  destruct (get data "appState") as [da|] eqn:Ea;
    cbn [mbind completion_bind try_catch] in H; [|discriminate].
  destruct (parse appStateSchema da) as [sa|] eqn:Epa;
    cbn [mbind completion_bind try_catch] in H; [|discriminate].
  destruct (get data "preview") as [dp|] eqn:Ep;
    cbn [mbind completion_bind try_catch] in H; [|discriminate].
  destruct (get data "files") as [df|] eqn:Ef;
    cbn [mbind completion_bind try_catch] in H; [|discriminate].
  injection H as <-. exists de, da, dp, df. cbn [elements appState preview files].
  unfold parse in Epe, Epa.
  destruct (zparse (ZArray elementSchema) de); [|discriminate].
  destruct (zparse appStateSchema da); [|discriminate].
  injection Epe as ->. injection Epa as ->.
  repeat split; reflexivity.
Qed.

(** X6. The element schema is closed: a document in which one element
    carries a property the schema does not declare is refused as a whole,
    [sanitizeDrawingData] throwing its one error and
    [validateImportedDrawing] returning [false]. *)
Theorem element_unknown_key_rejected fields items e key v :
  field (lit "elements") fields = JArr items ->
  In (JObj e) items ->
  In (key, v) e ->
  shape_has (shape_of elementSchema) key = false ->
  sanitizeDrawingData (JObj fields)
  = Throw (Error "Invalid or malicious drawing data detected")
  /\ validateImportedDrawing (JObj fields) = Normal false.
Proof.
  intros Hel Hin Hkv Hkey.
  assert (Hthrow : sanitizeDrawingData (JObj fields)
                   = Throw (Error "Invalid or malicious drawing data detected")).
  { unfold sanitizeDrawingData, parse. cbn [get mbind completion_bind].
    rewrite Hel.
    rewrite (zparse_array_refused _ _ _ Hin
               (element_unknown_key_refused _ _ _ Hkv Hkey)).
    reflexivity. }
  split; [exact Hthrow|].
  rewrite validateImportedDrawing_checks. unfold document_checks.
  unfold sanitization_succeeds. rewrite Hthrow, andb_false_r. reflexivity.
Qed.

Lemma element_unknown_key_rejected_witness :
  validateImportedDrawing
    (document [ minimal_element;
                obj [ ("id", str "b"); ("type", str "rectangle"); ("x", int 0);
                      ("y", int 0); ("width", int 0); ("height", int 0);
                      ("angle", int 0); ("version", int 0);
                      ("versionNonce", int 0); ("onclick", str "x") ] ]
       (obj []))
  = Normal false.
Proof.
  eapply element_unknown_key_rejected.
  - reflexivity.
  - right; left; reflexivity.
  - do 9 right; left; reflexivity.
  - vm_compute. reflexivity.
Defined.

Lemma zparse_array_pairs item : forall l v,
  zparse (ZArray item) (JArr l) = Some v ->
  exists l', v = JArr l' /\ Forall2 (fun x y => zparse item x = Some y) l l'.
Proof.
  intros l v. rewrite zparse_array_items.
  revert v. induction l as [|x l IH]; intros v; cbn [foldr option_map].
  - intros [= <-]. exists []. split; [reflexivity | constructor].
  - destruct (zparse item x) as [y|] eqn:Ex; [|discriminate].
    destruct (foldr _ _ l) as [ys|] eqn:El; [|discriminate].
    cbn [option_map]. intros [= <-].
    destruct (IH (JArr ys)) as (l' & [= <-] & HF); [reflexivity|].
    exists (y :: ys). split; [reflexivity|]. constructor; assumption.
Qed.

Lemma sanitizeDrawingData_object fields sd :
  sanitizeDrawingData (JObj fields) = Normal sd ->
  zparse (ZArray elementSchema) (field (lit "elements") fields)
  = Some (elements sd)
  /\ files sd = match field (lit "files") fields with
                | JArr _ | JObj _ => json_sanitize (field (lit "files") fields)
                | df => df
                end.
Proof.
  intros H.
  apply sanitizeDrawingData_parts
    in H as (de & da & dp & df & He & _ & _ & Hf & Hpe & _ & _ & Hfiles).
  cbn [get] in He, Hf. injection He as <-. injection Hf as <-.
  split; [exact Hpe|]. rewrite Hfiles.
  destruct (field (lit "files") fields); reflexivity.
Qed.

Lemma json_sanitize_safe : forall v,
  all_strings (text_safe 10000) (json_sanitize v).
Proof.
  fix IH 1. intros [ | | |n|s|items|fields]; try exact I.
  - destruct n; exact I.
  - cbn [json_sanitize all_strings]. apply sanitizeText_safe. lia.
  - revert items. fix IHl 1. intros [|x items]; [exact I|].
    specialize (IHl items). pose proof (IH x) as Hx.
    cbn [json_sanitize all_strings] in *.
    destruct (json_sanitize x); cbn [all_strings] in *;
      (split; [first [exact Hx | exact I] | exact IHl]).
  - revert fields. fix IHl 1. intros [|[k x] fields]; [exact I|].
    specialize (IHl fields). pose proof (IH x) as Hx.
    cbn [json_sanitize all_strings] in *.
    destruct (json_sanitize x); cbn [all_strings] in *;
      first [exact IHl | split; [exact Hx | exact IHl]].
Qed.

(** X7. In a sanitized drawing every element has a [link] and a [text]
    that are strings, present or not in the input: the [link] is empty
    or begins with an allowed prefix and never with a blocked scheme, the
    [text] has at most 5000 code units and no control character. *)
Theorem accepted_elements_sanitized fields sd :
  sanitizeDrawingData (JObj fields) = Normal sd ->
  Forall (fun e' =>
            exists fields' u t,
              e' = JObj fields'
              /\ field (lit "link") fields' = JStr u /\ url_safe u
              /\ field (lit "text") fields' = JStr t /\ text_safe 5000 t)
    (array_items (elements sd)).
Proof.
  intros H. apply sanitizeDrawingData_object in H as [Hp _].
  destruct (field (lit "elements") fields) as [| | | | |l|]; try discriminate.
  apply zparse_array_pairs in Hp as (l' & -> & HF). cbn [array_items].
  induction HF as [|e e' l l' He HF IH]; constructor; [|exact IH].
  apply element_parsed in He as (f & f' & _ & -> & _ & Hlink & Htext).
  exists f', (sanitizeUrl (as_string (field (lit "link") f))),
    (sanitizeText (as_string (field (lit "text") f)) 5000).
  split; [reflexivity|]. split; [exact Hlink|].
  split; [apply sanitizeUrl_safe_idem|]. split; [exact Htext|].
  apply sanitizeText_safe. lia.
Qed.

Lemma accepted_elements_sanitized_witness :
  exists sd,
    sanitizeDrawingData (document [minimal_element] (obj [])) = Normal sd
    /\ Forall (fun e' =>
                 exists fields' u t,
                   e' = JObj fields'
                   /\ field (lit "link") fields' = JStr u /\ url_safe u
                   /\ field (lit "text") fields' = JStr t /\ text_safe 5000 t)
         (array_items (elements sd)).
Proof.
  eexists. split; [vm_compute; reflexivity|].
  apply (accepted_elements_sanitized
           [(lit "elements", JArr [minimal_element]); (lit "appState", obj [])]).
  vm_compute. reflexivity.
Defined.

(** X8. Sanitizing neither drops, adds nor reorders elements: the
    sanitized array has an element for each element of the input, in the
    same order and with the same [id]. So the count of the result is the
    count of the input. *)
Theorem sanitizeDrawingData_keeps_order fields sd :
  sanitizeDrawingData (JObj fields) = Normal sd ->
  exists l l',
    field (lit "elements") fields = JArr l
    /\ elements sd = JArr l'
    /\ Forall2 (fun e e' =>
                  exists f f',
                    e = JObj f /\ e' = JObj f'
                    /\ field (lit "id") f' = field (lit "id") f) l l'
    /\ length l' = length l.
Proof.
  intros H. apply sanitizeDrawingData_object in H as [Hp _].
  destruct (field (lit "elements") fields) as [| | | | |l|]; try discriminate.
  apply zparse_array_pairs in Hp as (l' & -> & HF).
  exists l, l'. split; [reflexivity|]. split; [reflexivity|].
  split; [|symmetry; eapply Forall2_length; exact HF].
  induction HF as [|e e' l l' He HF IH]; constructor; [|exact IH].
  apply element_parsed in He as (f & f' & -> & -> & Hid & _).
  exists f, f'. auto.
Qed.

Lemma sanitizeDrawingData_keeps_order_witness :
  exists sd,
    sanitizeDrawingData
      (document [minimal_element; minimal_element] (obj [])) = Normal sd
    /\ array_length (elements sd) = 2%nat.
Proof.
  eexists. split; [vm_compute; reflexivity|].
  match goal with
  | |- array_length (elements ?sd) = _ =>
      destruct (sanitizeDrawingData_keeps_order
                  [(lit "elements", JArr [minimal_element; minimal_element]);
                   (lit "appState", obj [])] sd ltac:(vm_compute; reflexivity))
        as (l & l' & Hl & Hl' & _ & Hlen)
  end.
  rewrite Hl'. cbn [array_length]. rewrite Hlen.
  injection Hl as <-. reflexivity.
Defined.

(** X9. The [files] of a sanitized drawing: when the input's [files] is
    an object or an array, every string value in the result, at any
    depth, has at most 10000 code units and no control character; a
    [files] that is itself a string is not an object and is returned as
    it came. *)
Theorem files_strings_sanitized fields sd :
  sanitizeDrawingData (JObj fields) = Normal sd ->
  match field (lit "files") fields with
  | JStr s => files sd = JStr s
  | _ => all_strings (text_safe 10000) (files sd)
  end.
Proof.
  intros H. apply sanitizeDrawingData_object in H as [_ ->].
  destruct (field (lit "files") fields) eqn:E; try exact I;
    try reflexivity; apply json_sanitize_safe.
Qed.

Lemma files_strings_sanitized_witness :
  exists sd,
    sanitizeDrawingData
      (obj [ ("elements", JArr []); ("appState", obj []);
             ("files", str "<script>x</script>") ]) = Normal sd
    /\ files sd = JStr (lit "<script>x</script>").
Proof.
  eexists. split; [vm_compute; reflexivity|].
  apply (files_strings_sanitized
           [(lit "elements", JArr []); (lit "appState", obj []);
            (lit "files", str "<script>x</script>")]).
  vm_compute. reflexivity.
Defined.

End DrawingExtras.

(* ================================================================= *)
(** * Further properties of the credentials check *)

Section CredentialExtras.

(** What [verifyCredentials] does once the hash is set. *)
Lemma verifyCredentials_value compare_value env hashed adminUsername
    username password :
  ADMIN_USERNAME env = Some adminUsername ->
  hashed <> [] ->
  let maxLength :=
    Nat.max (length username) (Nat.max (length adminUsername) 256) in
  verifyCredentials compare_value env (Some hashed) username password
  = ([TimingSafeEqual (Buffer_write (Buffer_alloc maxLength) username)
        (Buffer_write (Buffer_alloc maxLength) adminUsername);
      BcryptCompare password hashed],
     Normal (usernameValid username adminUsername
             && compare_value password hashed)).
Proof.
  intros Hu Hh maxLength. unfold verifyCredentials. rewrite Hu.
  destruct hashed as [|h hs]; [contradiction|].
  unfold crypto_timingSafeEqual.
  rewrite !Buffer_write_length, Nat.eqb_refl. reflexivity.
Qed.

(** Characters of two bytes are no surrogates: they are their own code
    points. *)
Lemma code_points_cons c t :
  two_byte c -> code_points (c :: t) = c :: code_points t.
Proof.
  unfold two_byte. intros Hc.
  assert (Hh : is_high_surrogate c = false).
  { unfold is_high_surrogate, between.
    apply andb_false_iff. left. apply N.leb_gt. lia. }
  assert (Hs : between 55296 57343 c = false).
  { unfold between. apply andb_false_iff. left. apply N.leb_gt. lia. }
  destruct t as [|d t]; cbn [code_points]; rewrite ?Hh, Hs; reflexivity.
Qed.

Lemma code_points_two_byte p rest :
  Forall two_byte p -> code_points (p ++ rest) = (p ++ code_points rest)%list.
Proof.
  induction 1 as [|c p Hc Hp IH]; [reflexivity|].
  cbn [app]. rewrite (code_points_cons c _ Hc), IH. reflexivity.
Qed.

Lemma utf8_two_byte c : two_byte c -> length (utf8 c) = 2%nat.
Proof.
  unfold two_byte, utf8. intros Hc.
  destruct (N.ltb_spec c 128); [lia|].
  destruct (N.ltb_spec c 2048); [reflexivity | lia].
Qed.

Lemma utf8_nonempty c : (1 <= length (utf8 c))%nat.
Proof.
  unfold utf8. destruct (c <? 128)%N; [cbn; lia|].
  destruct (c <? 2048)%N; [cbn; lia|]. destruct (c <? 65536)%N; cbn; lia.
Qed.

(** Once the characters of two bytes fill the buffer, what follows them
    is not written. *)
Lemma utf8_fitting_full p : forall rest room,
  Forall two_byte p -> (room <= 2 * length p)%nat ->
  utf8_fitting (p ++ rest) room = utf8_fitting p room.
Proof.
  induction p as [|c p IH]; intros rest room Hp Hroom.
  - cbn in Hroom. assert (room = 0%nat) as -> by lia.
    destruct rest as [|d rest]; [reflexivity|]. cbn [app utf8_fitting].
    pose proof (utf8_nonempty d).
    destruct (Nat.leb_spec (length (utf8 d)) 0); [lia | reflexivity].
  - apply Forall_cons in Hp as [Hc Hp]. cbn [app utf8_fitting].
    rewrite (utf8_two_byte c Hc).
    destruct (Nat.leb_spec 2 room); [|reflexivity].
    rewrite IH; [reflexivity | exact Hp | cbn [length] in Hroom; lia].
Qed.

Lemma Buffer_write_full p rest size :
  Forall two_byte p -> (size <= 2 * length p)%nat ->
  Buffer_write (Buffer_alloc size) (p ++ rest)
  = Buffer_write (Buffer_alloc size) p.
Proof.
  intros Hp Hsize. unfold Buffer_write, Buffer_alloc.
  rewrite repeat_length.
  rewrite (code_points_two_byte p rest Hp).
  rewrite utf8_fitting_full by assumption.
  rewrite <- (app_nil_r p) at 3 4.
  rewrite (code_points_two_byte p [] Hp).
  rewrite (utf8_fitting_full p (code_points []) size) by assumption.
  reflexivity.
Qed.

(** X10. [initializeAuth] ends in one of three ways. It hashes the
    password with 12 rounds and stores the hash, when the user name is
    not blank and the password has at least 8 code units; or it throws
    for the user name, when that is missing or blank; or it throws for
    the password, when the user name is fine and the password is missing
    or shorter than 8. The user name is looked at first, and a call that
    throws has not called [bcrypt.hash]. *)
Theorem initializeAuth_outcome
    (hash_value : jsstring -> Z -> list N -> jsstring)
    (env : Env) (salt : list N) :
  (exists username password,
     ADMIN_USERNAME env = Some username /\ trim username <> []
     /\ ADMIN_PASSWORD env = Some password /\ (8 <= length password)%nat
     /\ initializeAuth hash_value env salt
        = ([BcryptHash password BCRYPT_ROUNDS],
           Normal (Some (hash_value password BCRYPT_ROUNDS salt))))
  \/ ((forall username, ADMIN_USERNAME env = Some username -> trim username = [])
      /\ initializeAuth hash_value env salt
         = ([], Throw (Error "ADMIN_USERNAME environment variable is required")))
  \/ ((exists username, ADMIN_USERNAME env = Some username /\ trim username <> [])
      /\ (forall password,
            ADMIN_PASSWORD env = Some password -> (length password < 8)%nat)
      /\ initializeAuth hash_value env salt
         = ([], Throw (Error "ADMIN_PASSWORD environment variable is required (minimum 8 characters)"))).
Proof.
  unfold initializeAuth. destruct env as [[u|] pw]; cbn [ADMIN_USERNAME ADMIN_PASSWORD].
  2:{ right; left. split; [intros ? [=] | reflexivity]. }
  destruct u as [|c u].
  { right; left. split; [intros ? [= <-]; reflexivity | reflexivity]. }
  destruct (Nat.eqb_spec (length (trim (c :: u))) 0) as [Hblank|Hblank].
  { right; left. split; [|reflexivity].
    intros ? [= <-]. destruct (trim (c :: u)); [reflexivity | discriminate]. }
  assert (Hu : trim (c :: u) <> []).
  { intros E. rewrite E in Hblank. apply Hblank. reflexivity. }
  destruct pw as [[|d pw]|].
  - right; right. split; [eauto|]. split; [|reflexivity].
    intros ? [= <-]. cbn; lia.
  - destruct (Nat.ltb_spec (length (d :: pw)) 8) as [Hshort|Hlong].
    + right; right. split; [eauto|]. split; [|reflexivity].
      intros ? [= <-]. exact Hshort.
    + left. exists (c :: u), (d :: pw). repeat split; auto.
  - right; right. split; [eauto|]. split; [|reflexivity]. intros ? [=].
Qed.

(** X11. When the submitted and the configured user name are ASCII,
    [verifyCredentials] answers true exactly when the two user names are
    the same string and [bcrypt.compare] accepts the password. *)
Theorem verifyCredentials_ascii compare_value env hashed adminUsername
    username password :
  ADMIN_USERNAME env = Some adminUsername ->
  hashed <> [] ->
  Forall (fun c => (c < 128)%N) username ->
  Forall (fun c => (c < 128)%N) adminUsername ->
  snd (verifyCredentials compare_value env (Some hashed) username password)
  = Normal (bool_decide (username = adminUsername)
            && compare_value password hashed).
Proof.
  intros Hu Hh Hasc Hasc'.
  rewrite (verifyCredentials_value _ _ _ _ _ _ Hu Hh). cbn [snd].
  unfold usernameValid. rewrite usernameValid_ascii by assumption.
  reflexivity.
Qed.

Lemma verifyCredentials_ascii_witness :
  snd (verifyCredentials (fun data hash => bool_decide (hash = 36%N :: data))
         {| ADMIN_USERNAME := Some (lit "admin");
            ADMIN_PASSWORD := Some (lit "correct horse") |}
         (Some (36%N :: lit "correct horse"))
         (lit "Admin") (lit "correct horse"))
  = Normal false.
Proof.
  rewrite (verifyCredentials_ascii _ _ _ (lit "admin")).
  - reflexivity.
  - reflexivity.
  - discriminate.
  - repeat (apply List.Forall_cons; [reflexivity|]). apply List.Forall_nil.
  - repeat (apply List.Forall_cons; [reflexivity|]). apply List.Forall_nil.
Defined.

(** X12. The user-name check compares buffers of as many bytes as the
    longer name has code units, and a name is cut where the buffer ends.
    So when the configured name begins with at least 128 characters of
    two bytes each, and as many such characters as code units follow
    them, any name of the same length with the same beginning is taken
    for it: the password alone decides. *)
Theorem verifyCredentials_truncated_names compare_value env hashed
    (p x y : jsstring) password :
  ADMIN_USERNAME env = Some (p ++ y)%list ->
  hashed <> [] ->
  Forall two_byte p ->
  (128 <= length p)%nat ->
  (length x <= length p)%nat ->
  length x = length y ->
  snd (verifyCredentials compare_value env (Some hashed) (p ++ x)%list password)
  = Normal (compare_value password hashed).
Proof.
  intros Hu Hh Hp H128 Hx Hxy.
  rewrite (verifyCredentials_value _ _ _ _ _ _ Hu Hh). cbn [snd].
  unfold usernameValid. rewrite !length_app, Hxy, Nat.eqb_refl, andb_true_r.
  rewrite !Buffer_write_full by (assumption || lia).
  rewrite bool_decide_eq_true_2 by reflexivity. reflexivity.
Qed.

Lemma verifyCredentials_truncated_names_witness :
  snd (verifyCredentials (fun data hash => bool_decide (hash = 36%N :: data))
         {| ADMIN_USERNAME := Some (repeat 233%N 128 ++ lit "a")%list;
            ADMIN_PASSWORD := Some (lit "correct horse") |}
         (Some (36%N :: lit "correct horse"))
         (repeat 233%N 128 ++ lit "b")%list (lit "correct horse"))
  = Normal true.
Proof.
  rewrite (verifyCredentials_truncated_names _ _ _ (repeat 233%N 128)
             (lit "b") (lit "a")).
  - reflexivity.
  - reflexivity.
  - discriminate.
  - apply List.Forall_forall. intros c Hc. apply repeat_spec in Hc as ->.
    unfold two_byte. lia.
  - rewrite repeat_length. lia.
  - rewrite repeat_length. cbn. lia.
  - reflexivity.
Defined.

End CredentialExtras.

(* ================================================================= *)
(** * Further properties of sessions and the gate *)

Section SessionExtras.
Local Open Scope Z_scope.

Lemma getSession_found sessionId now sessions s :
  fst (getSession sessionId now sessions) = Some s
  <-> sessions !! sessionId = Some s /\ now <= expiresAt s.
Proof.
  unfold getSession. destruct (sessions !! sessionId) as [s0|].
  - destruct (Z.gtb_spec now (expiresAt s0)); cbn [fst]; split.
    + discriminate.
    + intros [[= ->] H']. lia.
    + intros [= ->]. split; [reflexivity | lia].
    + intros [[= ->] _]. reflexivity.
  - cbn [fst]. split; [discriminate | intros [[=] _]].
Qed.

Lemma getSession_kept sessionId now sessions s :
  fst (getSession sessionId now sessions) = Some s ->
  snd (getSession sessionId now sessions) = sessions.
Proof.
  unfold getSession. destruct (sessions !! sessionId) as [s0|]; [|discriminate].
  destruct (now >? expiresAt s0); [discriminate | reflexivity].
Qed.


Lemma toHex_nonempty bytes : bytes <> [] -> toHex bytes <> [].
Proof. destruct bytes; [contradiction | discriminate]. Qed.

(** X13. [requireAuth] lets a request through exactly when its session
    cookie is a non-empty token under which the table holds a session
    that has not expired; it attaches that session and leaves the table
    as it was. *)
Theorem requireAuth_attaches NODE_ENV req now sessions s :
  (fst (requireAuth NODE_ENV req now sessions) = Attached s
   <-> exists token,
         session_cookie req = Some token /\ token <> []
         /\ sessions !! token = Some s /\ now <= expiresAt s)
  /\ (fst (requireAuth NODE_ENV req now sessions) = Attached s ->
      snd (requireAuth NODE_ENV req now sessions) = sessions).
Proof.
  unfold requireAuth.
  destruct (session_cookie req) as [[|c token]|] eqn:Ec.
  - split; [split|]; try discriminate. intros (t & [= <-] & Hne & _). contradiction.
  - pose proof (getSession_found (c :: token) now sessions s) as Hf.
    pose proof (getSession_kept (c :: token) now sessions) as Hk.
    destruct (getSession (c :: token) now sessions) as [[s0|] t'];
      cbn [fst snd] in *.
    + split; [split|].
      * intros [= ->]. exists (c :: token).
        destruct Hf as [Hf _]. destruct (Hf eq_refl).
        repeat split; auto; try discriminate.
      * intros (t & [= <-] & _ & H1 & H2). f_equal.
        destruct Hf as [_ Hf]. specialize (Hf (conj H1 H2)). congruence.
      * intros _. exact (Hk s0 eq_refl).
    + split; [split|]; try discriminate.
      intros (t & [= <-] & _ & H1 & H2).
      destruct Hf as [_ Hf]. specialize (Hf (conj H1 H2)). discriminate.
  - split; [split|]; try discriminate. intros (t & [=] & _).
Qed.



(** X15. Log in, pass the gate, log out: the cookie of a session made by
    [createSession] passes [requireAuth] as long as the clock has not
    passed the expiry, with the session attached and the table left
    alone; once [destroySession] has run, the same cookie is refused at
    any time with [Session expired] and cleared. *)
Theorem session_gate_lifecycle NODE_ENV req randomBytes now1 now2 now later
    sessions :
  randomBytes <> [] ->
  session_cookie req = Some (toHex randomBytes) ->
  now <= now2 + SESSION_EXPIRY_MS ->
  let created := createSession randomBytes now1 now2 sessions in
  let after := destroySession (id (fst created)) (snd created) in
  requireAuth NODE_ENV req now (snd created)
  = (Attached (fst created), snd created)
  /\ requireAuth NODE_ENV req later after
     = (Rejected 401 "Session expired"
          (Some (SESSION_COOKIE_NAME, getCookieOptions NODE_ENV (Some 0))),
        after).
Proof.
  intros Hrb Hc Hnow created after.
  pose proof (toHex_nonempty _ Hrb) as Hne.
  unfold requireAuth. rewrite Hc.
  destruct (toHex randomBytes) as [|c token] eqn:Et; [contradiction|].
  unfold after, created, destroySession, createSession, getSession.
  cbn [fst snd id]. rewrite Et, lookup_insert_eq, lookup_delete_eq.
  cbn [expiresAt].
  destruct (Z.gtb_spec now (now2 + SESSION_EXPIRY_MS)); [lia|].
  split; reflexivity.
Qed.

Lemma session_gate_lifecycle_witness :
  let req :=
    {| cookies :=
         Some (<[SESSION_COOKIE_NAME := lit "00ff"]>
                 (∅ : gmap jsstring jsstring)) |} in
  let created := createSession [0; 255]%N 1000 1000 ∅ in
  fst (requireAuth None req 2000 (snd created)) = Attached (fst created)
  /\ fst (requireAuth None req 2000
            (destroySession (id (fst created)) (snd created)))
     = Rejected 401 "Session expired"
         (Some (SESSION_COOKIE_NAME, getCookieOptions None (Some 0))).
Proof.
  intros req created.
  destruct (session_gate_lifecycle None req [0; 255]%N 1000 1000 2000 2000 ∅)
    as [H1 H2].
  - discriminate.
  - vm_compute. reflexivity.
  - vm_compute. discriminate.
  - unfold created. rewrite H1, H2. split; reflexivity.
Defined.

(** X16. The periodic sweep is not observable: at any time not before
    the sweep, [getSession] and [requireAuth] answer the same on the
    swept table as on the table that was not swept. *)
Theorem sweep_unobservable NODE_ENV req sessionId swept now sessions :
  swept <= now ->
  fst (getSession sessionId now (sweep swept sessions))
  = fst (getSession sessionId now sessions)
  /\ fst (requireAuth NODE_ENV req now (sweep swept sessions))
     = fst (requireAuth NODE_ENV req now sessions).
Proof.
  intros Hle.
  assert (Hget : forall token,
            fst (getSession token now (sweep swept sessions))
            = fst (getSession token now sessions)).
  { intros token.
    destruct (fst (getSession token now sessions)) as [s|] eqn:E.
    - apply getSession_found. apply getSession_found in E as [E1 E2].
      split; [|exact E2]. apply sweep_lookup. split; [exact E1 | lia].
    - destruct (fst (getSession token now (sweep swept sessions)))
        as [s|] eqn:E'; [|reflexivity].
      apply getSession_found in E' as [E1 E2].
      apply sweep_lookup in E1 as [E1 _].
      assert (H : fst (getSession token now sessions) = Some s)
        by (apply getSession_found; auto).
      congruence. }
  split; [apply Hget|].
  unfold requireAuth. destruct (session_cookie req) as [[|c token]|];
    try reflexivity.
  specialize (Hget (c :: token)).
  destruct (getSession (c :: token) now (sweep swept sessions)) as [[s|] t1],
    (getSession (c :: token) now sessions) as [[s'|] t2];
    cbn [fst] in *; congruence.
Qed.

Lemma sweep_unobservable_witness :
  let sessions :=
    snd (createSession [1]%N 0 0 (snd (createSession [2]%N 500 500 ∅))) in
  fst (getSession (toHex [2]%N) (SESSION_EXPIRY_MS + 400)
         (sweep (SESSION_EXPIRY_MS + 300) sessions))
  = fst (getSession (toHex [2]%N) (SESSION_EXPIRY_MS + 400) sessions).
Proof.
  intros sessions.
  apply (sweep_unobservable None {| cookies := None |}).
  unfold SESSION_EXPIRY_MS. lia.
Defined.

(** X17. Every entry of the session table is stored under its own token.
    This holds of the empty table and is kept by [createSession],
    [getSession], [destroySession] and the sweep; so the session that
    [getSession] returns for a token carries that token. *)
Theorem sessions_keyed randomBytes now1 now2 sessionId now sessions :
  keyed sessions ->
  keyed (snd (createSession randomBytes now1 now2 sessions))
  /\ keyed (snd (getSession sessionId now sessions))
  /\ keyed (destroySession sessionId sessions)
  /\ keyed (sweep now sessions)
  /\ (forall s, fst (getSession sessionId now sessions) = Some s ->
                id s = sessionId).
Proof.
  intros Hk.
  assert (Hdel : forall k, keyed (delete k sessions)).
  { intros k token s H. apply lookup_delete_Some in H as [_ H]. eauto. }
  repeat split.
  - intros token s. unfold createSession. cbn [snd id].
    intros H. apply lookup_insert_Some in H as [[<- <-]|[_ H]];
      [reflexivity | eauto].
  - unfold getSession. destruct (sessions !! sessionId) as [s0|]; [|exact Hk].
    destruct (now >? expiresAt s0); [apply Hdel | exact Hk].
  - apply Hdel.
  - intros token s H. apply sweep_lookup in H as [H _]. eauto.
  - intros s H. apply getSession_found in H as [H _]. eauto.
Qed.

Lemma sessions_keyed_witness :
  keyed (snd (createSession [1]%N 0 0 ∅))
  /\ keyed (sweep 5 (∅ : gmap jsstring Session)).
Proof.
  destruct (sessions_keyed [1]%N 0 0 [] 5 ∅) as (H1 & _ & _ & H4 & _).
  - intros token s H. rewrite lookup_empty in H. discriminate.
  - split; assumption.
Defined.

End SessionExtras.

(* ================================================================= *)
(** * Further properties of the login rate limiter *)

Section RateLimitExtras.
Local Open Scope Z_scope.

Lemma loginRateLimit_run_cons req now reqs loginAttempts :
  loginRateLimit_run ((req, now) :: reqs) loginAttempts
  = (fst (loginRateLimit req now loginAttempts)
       :: fst (loginRateLimit_run reqs
                 (snd (loginRateLimit req now loginAttempts))),
     snd (loginRateLimit_run reqs
            (snd (loginRateLimit req now loginAttempts)))).
Proof.
  cbn [loginRateLimit_run].
  destruct (loginRateLimit req now loginAttempts) as [v m]. cbn [fst snd].
  destruct (loginRateLimit_run reqs m). reflexivity.
Qed.

(** A request touches no entry but its client's. *)
Lemma loginRateLimit_other req now loginAttempts other :
  other <> client_ip req ->
  snd (loginRateLimit req now loginAttempts) !! other = loginAttempts !! other.
Proof.
  intros Hne. unfold loginRateLimit.
  destruct (loginAttempts !! client_ip req) as [a|];
    [destruct (now >? resetTime a);
       [|destruct (count a >=? LOGIN_MAX_ATTEMPTS); [reflexivity|]]|];
    cbn [snd]; apply lookup_insert_ne; congruence.
Qed.

(** After a request its client has an entry. *)
Lemma loginRateLimit_own req now loginAttempts :
  is_Some (snd (loginRateLimit req now loginAttempts) !! client_ip req).
Proof.
  unfold loginRateLimit.
  destruct (loginAttempts !! client_ip req) as [a|] eqn:E;
    [destruct (now >? resetTime a);
       [|destruct (count a >=? LOGIN_MAX_ATTEMPTS);
         [cbn [snd]; rewrite E; eauto|]]|];
    cbn [snd]; rewrite lookup_insert_eq; eauto.
Qed.

(** The answer and the client's new entry depend on the client's entry
    alone. *)
Lemma loginRateLimit_local req now m1 m2 :
  m1 !! client_ip req = m2 !! client_ip req ->
  fst (loginRateLimit req now m1) = fst (loginRateLimit req now m2)
  /\ snd (loginRateLimit req now m1) !! client_ip req
     = snd (loginRateLimit req now m2) !! client_ip req.
Proof.
  intros H. unfold loginRateLimit. rewrite <- H.
  destruct (m1 !! client_ip req) as [a|] eqn:E;
    [destruct (now >? resetTime a);
       [|destruct (count a >=? LOGIN_MAX_ATTEMPTS);
         [cbn [fst snd]; split; [reflexivity | congruence]|]]|];
    cbn [fst snd]; rewrite !lookup_insert_eq; split; reflexivity.
Qed.

Lemma loginRateLimit_bounded req now loginAttempts :
  counters_bounded loginAttempts ->
  counters_bounded (snd (loginRateLimit req now loginAttempts)).
Proof.
  intros Hb k a. destruct (decide (k = client_ip req)) as [->|Hne].
  2:{ rewrite loginRateLimit_other by exact Hne. apply Hb. }
  unfold loginRateLimit.
  destruct (loginAttempts !! client_ip req) as [a0|] eqn:E.
  - specialize (Hb _ _ E).
    destruct (now >? resetTime a0).
    + cbn [snd]. rewrite lookup_insert_eq. intros [= <-]. cbn.
      unfold LOGIN_MAX_ATTEMPTS. lia.
    + destruct (Z.geb_spec (count a0) LOGIN_MAX_ATTEMPTS).
      * cbn [snd]. rewrite E. intros [= <-]. exact Hb.
      * cbn [snd]. rewrite lookup_insert_eq. intros [= <-]. cbn [count]. lia.
  - cbn [snd]. rewrite lookup_insert_eq. intros [= <-]. cbn.
    unfold LOGIN_MAX_ATTEMPTS. lia.
Qed.

(** X18. No counter ever leaves the range from 1 to 5: if every counter of
    the table is in it, so is every counter after any run of requests,
    whatever their clients and times. It holds of the empty table. *)
Theorem loginRateLimit_counters_bounded reqs : forall loginAttempts,
  counters_bounded loginAttempts ->
  counters_bounded (snd (loginRateLimit_run reqs loginAttempts)).
Proof.
  induction reqs as [|[req now] reqs IH]; intros m Hb; [exact Hb|].
  rewrite loginRateLimit_run_cons. cbn [snd].
  apply IH, loginRateLimit_bounded, Hb.
Qed.

Lemma loginRateLimit_counters_bounded_witness :
  let req := {| ip := Some (lit "10.0.0.1"); remoteAddress := None |} in
  counters_bounded
    (snd (loginRateLimit_run
            [(req, 0); (req, 1); (req, 2); (req, 3); (req, 4); (req, 5);
             (req, 6)] ∅)).
Proof.
  intros req. apply loginRateLimit_counters_bounded.
  intros k a H. rewrite lookup_empty in H. discriminate.
Defined.

(** X19. A request changes no counter but its own client's, and the
    limiter never removes an entry: an address that has an entry still
    has one after any run of requests. *)
Theorem loginRateLimit_isolated req now loginAttempts :
  (forall other, other <> client_ip req ->
     snd (loginRateLimit req now loginAttempts) !! other
     = loginAttempts !! other)
  /\ is_Some (snd (loginRateLimit req now loginAttempts) !! client_ip req)
  /\ (forall reqs key,
        is_Some (loginAttempts !! key) ->
        is_Some (snd (loginRateLimit_run reqs loginAttempts) !! key)).
Proof.
  split; [intros other; apply loginRateLimit_other|].
  split; [apply loginRateLimit_own|].
  intros reqs key. revert loginAttempts.
  induction reqs as [|[r t] reqs IH]; intros m Hin; [exact Hin|].
  rewrite loginRateLimit_run_cons. cbn [snd]. apply IH.
  destruct (decide (key = client_ip r)) as [->|Hne].
  - apply loginRateLimit_own.
  - rewrite loginRateLimit_other by exact Hne. exact Hin.
Qed.

(** X20. Clients do not interfere: the answers that a client gets in a
    run of requests of many clients are the answers it would get if its
    own requests were the only ones. *)
Theorem loginRateLimit_clients_independent client reqs loginAttempts :
  verdicts_for client reqs loginAttempts
  = fst (loginRateLimit_run (List.filter (from_client client) reqs)
           loginAttempts).
Proof.
  unfold verdicts_for.
  enough (H : forall m1 m2, m1 !! client = m2 !! client ->
            map snd
              (List.filter (fun p => from_client client (fst p))
                 (combine reqs (fst (loginRateLimit_run reqs m1))))
            = fst (loginRateLimit_run (List.filter (from_client client) reqs)
                     m2))
    by (apply H; reflexivity).
  induction reqs as [|[r t] reqs IH]; intros m1 m2 Hm; [reflexivity|].
  rewrite loginRateLimit_run_cons. cbn [fst combine List.filter].
  destruct (from_client client (r, t)) eqn:Ef; unfold from_client in Ef;
    cbn [fst] in Ef.
  - apply bool_decide_eq_true in Ef. subst client.
    rewrite loginRateLimit_run_cons. cbn [fst map snd].
    destruct (loginRateLimit_local r t m1 m2 Hm) as [Hv Ht].
    rewrite Hv. f_equal. apply IH. exact Ht.
  - apply bool_decide_eq_false in Ef.
    apply IH. rewrite loginRateLimit_other by congruence. exact Hm.
Qed.

(** X21. Within a window the limiter lets pass what is left of the five
    and nothing more: when the client's counter stands at [count] and a
    run of its requests comes no later than the reset time, the first
    [5 - count] of them pass and every later one is answered 429 with
    the seconds left until the reset, rounded up. *)
Theorem loginRateLimit_window_run client reset : forall reqs count0 loginAttempts,
  loginAttempts !! client = Some {| count := count0; resetTime := reset |} ->
  Forall (fun rt => client_ip (fst rt) = client /\ snd rt <= reset) reqs ->
  fst (loginRateLimit_run reqs loginAttempts)
  = window_verdicts count0 reset reqs.
Proof.
  induction reqs as [|[r t] reqs IH]; intros count0 m Hm Hall.
  { unfold window_verdicts. cbn. rewrite skipn_nil. reflexivity. }
  apply Forall_cons in Hall as [[Hip Ht] Hall]. cbn [fst snd] in Hip, Ht.
  rewrite loginRateLimit_run_cons. cbn [fst]. subst client.
  destruct (Z_lt_le_dec count0 LOGIN_MAX_ATTEMPTS) as [Hlt|Hge].
  - rewrite (loginRateLimit_counted r t m _ Hm) by (cbn; assumption).
    cbn [fst snd count resetTime].
    rewrite (IH (count0 + 1)); [|apply lookup_insert_eq | exact Hall].
    unfold window_verdicts.
    replace (Z.to_nat (LOGIN_MAX_ATTEMPTS - count0))
      with (S (Z.to_nat (LOGIN_MAX_ATTEMPTS - (count0 + 1)))) by lia.
    reflexivity.
  - rewrite (loginRateLimit_rejected r t m _ Hm) by (cbn; assumption).
    cbn [fst snd resetTime].
    rewrite (IH count0 m Hm Hall).
    unfold window_verdicts.
    replace (Z.to_nat (LOGIN_MAX_ATTEMPTS - count0)) with 0%nat by lia.
    rewrite !Nat.min_0_r. reflexivity.
Qed.

Lemma loginRateLimit_window_run_witness :
  let req := {| ip := Some (lit "10.0.0.1"); remoteAddress := None |} in
  fst (loginRateLimit_run [(req, 10); (req, 20); (req, 2500)]
         (<[lit "10.0.0.1" := {| count := 3; resetTime := 5000 |}]> ∅))
  = [Next; Next; TooManyRequests 3].
Proof.
  intros req.
  rewrite (loginRateLimit_window_run (lit "10.0.0.1") 5000 _ 3).
  - reflexivity.
  - apply lookup_insert_eq.
  - repeat (apply List.Forall_cons; [split; [reflexivity | cbn; lia]|]).
    apply List.Forall_nil.
Defined.

End RateLimitExtras.

(* ================================================================= *)
(** * Matches as derivations *)

Section Derivations.










End Derivations.

Section Shapes.
Local Open Scope string_scope.
















End Shapes.

(* ================================================================= *)
(** * Occurrences side by side *)

Section Scanning.
Local Open Scope string_scope.








End Scanning.

Section PatternsAtParts.
Local Open Scope string_scope.









End PatternsAtParts.

Section ScriptBlocks.
Local Open Scope string_scope.


Lemma derives_star_inv r prev w rest :
  derives (Star r) prev w rest ->
  w = []
  \/ exists w1 w2,
       w = (w1 ++ w2)%list /\ derives r prev w1 (w2 ++ rest)%list
       /\ derives (Star r) (prev_after prev w1) w2 rest.
Proof. inversion 1; subst; [left; reflexivity | right; eauto]. Qed.
















End ScriptBlocks.

Section UrisAndHandlers.
Local Open Scope string_scope.









End UrisAndHandlers.

Section SideBySide.
Local Open Scope string_scope.













End SideBySide.

Section SideBySideClaim.
Local Open Scope string_scope.






(** What the output of the witness is. *)
Example sanitizeHtml_side_by_side :
  sanitizeHtml
    (Some (lit "Hello <script>if(a<b)alert(1)</script>world onclick='x()' JavaScript:run"))
  = lit "Hello world  run".
Proof. vm_compute. reflexivity. Qed.

(** Outside such inputs the outputs can hold a pattern. With a [<] in
    the value of a handler, the script pass starts inside the handler and
    takes its closing quote along; the handler pass then joins [java] and
    [script:]. *)
Example sanitizeHtml_handler_value_with_lt :
  sanitizeHtml
    (Some (lit "javaonx='a<script>'<script>b</script> onw='script:'"))
  = lit "javascript:'".
Proof. vm_compute. reflexivity. Qed.

(** With a [<] in the text, the word characters before a handler are
    deleted with it and the text around them joins into a script
    block. *)
Example sanitizeHtml_text_with_lt :
  sanitizeHtml
    (Some (lit "<ononclick='a'script>alert(1)</ononclick='a'script>"))
  = lit "<script>alert(1)</script>".
Proof. vm_compute. reflexivity. Qed.

End SideBySideClaim.
